(** * cachestore: the raw-store adapter over an expiring in-process cache

    A shallow embedding of [cache_store.go], [cache_factory.go] and
    [cache_config.go], and the properties of the adapter that its
    specification states.

    Conventions of the embedding.
    - Go's [int], [int64] and [time.Duration] are 64-bit two's complement
      integers: they are carried as [Z] and every arithmetic result is
      reduced with [Int64.wrap].
    - A [[]byte] is [bytes]: [None] is the nil slice, [Some l] a non-nil
      slice holding [l] ([Some []] is the empty, non-nil slice).  Slices are
      values: neither the adapter nor the callbacks it is given write through
      a slice into its backing array.
    - The engine's clock ([time.Now().UnixNano()]) is not part of the cache:
      every engine call that reads it takes the reading as an argument.
    - Ranging over a Go map yields each pair once, in no fixed order: a loop
      over [t.cache.Items()] takes the yielded sequence as an argument, and
      the theorems hold for every sequence that [ranges] over the snapshot.
    - The [context.Context] arguments, the [ttlPtr] and [versionPtr]
      arguments of [GetRaw] and the [discardRatio] of [Compact] are never
      read by the source and are left out.  [Backup] and [Restore] hand a
      stream to the engine's serializer and are not modelled. *)

From Stdlib Require Import ZArith List Bool Lia Permutation.
From Stdlib Require Import Strings.String Strings.Ascii Strings.Byte.
From stdpp Require Import gmap strings list fin_maps.

(** ** Machine integers *)

Module Int64.

Definition modulus : Z := 2 ^ 64.
Definition max_signed : Z := 2 ^ 63 - 1.
Definition min_signed : Z := - 2 ^ 63.

(** The value of the low 64 bits of [z], read as unsigned ([uint64(z)]). *)
Definition unsigned (z : Z) : Z := (z mod modulus)%Z.

(** The value of the low 64 bits of [z], read as signed ([int64(z)]). *)
Definition wrap (z : Z) : Z := ((z + 2 ^ 63) mod modulus - 2 ^ 63)%Z.

Definition in_range (z : Z) : Prop := (min_signed <= z <= max_signed)%Z.

Definition add (a b : Z) : Z := wrap (a + b).
Definition mul (a b : Z) : Z := wrap (a * b).

End Int64.

(** ** Byte slices and strings *)

Definition bytes : Type := option (list byte).

Definition len (b : bytes) : Z :=
  match b with
  | None => 0%Z
  | Some l => Z.of_nat (List.length l)
  end.

(** [string(b)]: the nil and the empty slice both give the empty string. *)
Definition string_of_bytes (b : bytes) : string :=
  match b with
  | None => EmptyString
  | Some l => string_of_list_byte l
  end.

(** [[]byte(s)]: always a non-nil slice. *)
Definition bytes_of_string (s : string) : bytes := Some (list_byte_of_string s).

(** [strings.HasPrefix(s, prefix)]. *)
Definition HasPrefix (s prefix : string) : bool := String.prefix prefix s.

(** [a >= b] on Go strings: byte-wise lexicographic order. *)
Definition string_ge (a b : string) : bool := String.leb b a.

(** ** encoding/binary, big endian *)

Module BigEndian.

Definition byte_of_Z (z : Z) : byte :=
  match Byte.of_N (Z.to_N (z mod 256)) with
  | Some b => b
  | None => x00
  end.

Definition Z_of_byte (b : byte) : Z := Z.of_N (Byte.to_N b).

(** Big-endian value of a byte sequence. *)
Definition decode (l : list byte) : Z :=
  fold_left (fun acc b => (acc * 256 + Z_of_byte b)%Z) l 0%Z.

(** The [n] low-order bytes of [z], most significant first. *)
Fixpoint encode (n : nat) (z : Z) : list byte :=
  match n with
  | O => []
  | S n' => encode n' (z / 256) ++ [byte_of_Z z]
  end.

(** [binary.BigEndian.Uint64(b)]: the first eight bytes of [b]; the call
    panics on a shorter slice, which is [None] here. *)
Definition Uint64 (b : bytes) : option Z :=
  match b with
  | Some l => if (8 <=? len b)%Z then Some (decode (firstn 8 l)) else None
  | None => None
  end.

(** [binary.BigEndian.PutUint64(b, v)] on a fresh [make([]byte, 8)]. *)
Definition PutUint64 (v : Z) : bytes := Some (encode 8 v).

End BigEndian.

(** ** The expiring cache engine *)

(** Modelled from the spec: the underlying engine is the external module
    [github.com/patrickmn/go-cache] (v2.1.0 in [go.mod]), whose code is not
    part of this repository.  The adapter reaches it through [Set], [Get],
    [Delete], [Items], [DeleteExpired] and [Flush] (section 6 of the
    specification): a map from string keys to items with one absolute
    expiration instant each, in nanoseconds of the Unix clock, where an
    instant that is not positive means no expiration, [Get] and [Items] leave
    out the items whose instant has passed, and the passive sweep removes
    them.  A duration of 0 given to [Set] stands for the cache's default
    expiration and a negative one for no expiration. *)
Module Engine.

(** What an [interface{}] slot of the engine can hold, as far as the
    adapter can tell: the nil interface, a [[]byte] (possibly the nil
    slice), or a value of any other dynamic type. *)
Inductive Interface : Type :=
| ObjNil
| ObjBytes (b : bytes)
| ObjOther (repr : string).

Record Item : Type := mkItem {
  Object : Interface;
  Expiration : Z
}.

Record Cache : Type := mkCache {
  defaultExpiration : Z;
  items : gmap string Item
}.

Definition NoExpiration : Z := (-1)%Z.
Definition DefaultExpiration : Z := 0%Z.

(** The test [Get], [Items] and [DeleteExpired] make on an item at clock
    reading [now]. *)
Definition expired (it : Item) (now : Z) : bool :=
  (0 <? Expiration it)%Z && (Expiration it <? now)%Z.

(** [cache.New(defaultExpiration, cleanupInterval)]: an empty cache; a zero
    default stands for no expiration. *)
Definition New (de cleanupInterval : Z) : Cache :=
  {| defaultExpiration := if (de =? 0)%Z then NoExpiration else de;
     items := ∅ |}.

(** The expiration instant [Set] gives an item written at clock reading
    [now] with duration [d]. *)
Definition expirationFor (de now d : Z) : Z :=
  let d := if (d =? DefaultExpiration)%Z then de else d in
  if (0 <? d)%Z then Int64.add now d else 0%Z.

(** [c.Set(k, x, d)] at clock reading [now]. *)
Definition Set_ (c : Cache) (now : Z) (k : string) (x : Interface) (d : Z) : Cache :=
  {| defaultExpiration := defaultExpiration c;
     items := <[k := mkItem x (expirationFor (defaultExpiration c) now d)]> (items c) |}.

(** [c.Get(k)] at clock reading [now]: the object and whether it was found. *)
Definition Get (c : Cache) (now : Z) (k : string) : Interface * bool :=
  match items c !! k with
  | None => (ObjNil, false)
  | Some it => if expired it now then (ObjNil, false) else (Object it, true)
  end.

(** [c.Delete(k)]. *)
Definition Delete (c : Cache) (k : string) : Cache :=
  {| defaultExpiration := defaultExpiration c;
     items := delete k (items c) |}.

(** [c.Items()] at clock reading [now]: a copy of the unexpired items. *)
Definition Items (c : Cache) (now : Z) : gmap string Item :=
  filter (fun kv => expired kv.2 now = false) (items c).

(** [c.DeleteExpired()] at clock reading [now]: the passive sweep. *)
Definition DeleteExpired (c : Cache) (now : Z) : Cache :=
  {| defaultExpiration := defaultExpiration c;
     items := Items c now |}.

(** [c.Flush()]. *)
Definition Flush (c : Cache) : Cache :=
  {| defaultExpiration := defaultExpiration c; items := ∅ |}.

End Engine.

Import Engine.

(** A sequence [l] that a [for key, item := range m] loop can go through:
    every pair of [m] once, in any order. *)
Definition ranges (m : gmap string Item) (l : list (string * Item)) : Prop :=
  l ≡ₚ map_to_list m.

(** ** The store package's raw entry and the adapter's errors *)

(** Modelled from the spec: [store.RawEntry] and [store.NoTTL] are declared in
    the external module [github.com/keyvalstore/store]; an entry has a key, a
    value, a TTL in seconds and a version, and a TTL that is not positive
    means no expiration. *)
Record RawEntry : Type := mkRawEntry {
  Key : bytes;
  Value : bytes;
  Ttl : Z;
  Version : Z
}.

Definition NoTTL : Z := 0%Z.

Inductive error : Type :=
| ErrNotExist   (* os.ErrNotExist *)
| ErrCanceled.  (* "operation was canceled" *)

(** ** time *)

Definition Second : Z := 1000000000%Z.

(** ** cache_config.go, cache_factory.go *)

Record Config : Type := mkConfig {
  ConfDefaultExpiration : Z;
  CleanupInterval : Z
}.

Definition Option : Type := Config -> Config.

Definition WithNope : Option := fun opts => opts.

Definition WithDefaultExpiration (value : Z) : Option :=
  fun opts => {| ConfDefaultExpiration := value; CleanupInterval := CleanupInterval opts |}.

Definition WithCleanupInterval (value : Z) : Option :=
  fun opts => {| ConfDefaultExpiration := ConfDefaultExpiration opts; CleanupInterval := value |}.

Definition Hour : Z := (3600 * Second)%Z.

Definition OpenDatabase (options : list Option) : Cache :=
  let conf := {| ConfDefaultExpiration := NoExpiration; CleanupInterval := Hour |} in
  let conf := fold_left (fun conf opt => opt conf) options conf in
  Engine.New (ConfDefaultExpiration conf) (CleanupInterval conf).

(** ** cache_store.go *)

Record cacheStore : Type := mkStore {
  name : string;
  cache : Cache
}.

Definition New (name : string) (options : list Option) : cacheStore :=
  {| name := name; cache := OpenDatabase options |}.

Definition NewDefault (name : string) : cacheStore := New name [].

Definition FromCache (name : string) (c : Cache) : cacheStore :=
  {| name := name; cache := c |}.

Definition with_cache (t : cacheStore) (c : Cache) : cacheStore :=
  {| name := name t; cache := c |}.

Definition BeanName (t : cacheStore) : string := name t.

Definition Destroy (t : cacheStore) : option error := None.

Definition Instance (t : cacheStore) : Cache := cache t.

(** The duration both [SetRaw], [UpdateRaw] and [TouchRaw] hand to the
    engine for a TTL in seconds. *)
Definition ttlDuration (ttlSeconds : Z) : Z :=
  if (0 <? ttlSeconds)%Z then Int64.mul Second ttlSeconds else NoExpiration.

(** The [[]byte] under an object the engine returned with [found]:
    [obj, ok := Get(k); ok && obj != nil], then [b, ok := obj.([]byte)]. *)
Definition bytesOf (r : Interface * bool) : bytes :=
  match r with
  | (ObjBytes b, true) => b
  | _ => None
  end.

Definition getImpl (t : cacheStore) (now : Z) (key : bytes) (required : bool)
  : bytes * option error :=
  let val := bytesOf (Get (cache t) now (string_of_bytes key)) in
  match val, required with
  | None, true => (None, Some ErrNotExist)
  | _, _ => (val, None)
  end.

Definition GetRaw (t : cacheStore) (now : Z) (key : bytes) (required : bool)
  : bytes * option error :=
  getImpl t now key required.

Definition SetRaw (t : cacheStore) (now : Z) (key value : bytes) (ttlSeconds : Z)
  : option error * cacheStore :=
  let ttl := ttlDuration ttlSeconds in
  (None, with_cache t (Set_ (cache t) now (string_of_bytes key) (ObjBytes value) ttl)).

(** The callback of [UpdateRaw] is a closure: [A] is what it captures and
    may assign, besides the entry it is handed. *)
Definition mutator (A : Type) : Type := RawEntry -> A -> RawEntry * A * bool.

(** The entry [UpdateRaw] builds and hands to its callback. *)
Definition currentEntry (t : cacheStore) (now : Z) (key : bytes) : RawEntry :=
  {| Key := key;
     Value := bytesOf (Get (cache t) now (string_of_bytes key));
     Ttl := NoTTL;
     Version := 0%Z |}.

(** [UpdateRaw]: [now_get] and [now_set] are the clock readings of the
    engine's [Get] and [Set]. *)
Definition UpdateRaw {A : Type} (t : cacheStore) (now_get now_set : Z)
    (key : bytes) (cb : mutator A) (env : A) : option error * cacheStore * A :=
  let rawEntry := currentEntry t now_get key in
  let '(rawEntry, env, commit) := cb rawEntry env in
  if negb commit then (Some ErrCanceled, t, env)
  else
    let ttl := ttlDuration (Ttl rawEntry) in
    (None,
     with_cache t (Set_ (cache t) now_set (string_of_bytes key) (ObjBytes (Value rawEntry)) ttl),
     env).

(** [IncrementRaw]: the closure captures the named result [prev], which
    starts at zero. *)
Definition IncrementRaw (t : cacheStore) (now_get now_set : Z) (key : bytes)
    (initial delta ttlSeconds : Z) : Z * option error * cacheStore :=
  let '(err, t, prev) :=
    UpdateRaw t now_get now_set key
      (fun entry _ =>
         let counter := initial in
         let counter :=
           match BigEndian.Uint64 (Value entry) with
           | Some u => Int64.wrap u
           | None => counter
           end in
         let prev := counter in
         let counter := Int64.add counter delta in
         let entry :=
           {| Key := Key entry;
              Value := BigEndian.PutUint64 (Int64.unsigned counter);
              Ttl := ttlSeconds;
              Version := Version entry |} in
         (entry, prev, true))
      0%Z in
  (prev, err, t).

Definition CompareAndSetRaw (t : cacheStore) (now : Z) (key value : bytes)
    (ttlSeconds version : Z) : bool * option error * cacheStore :=
  let '(err, t) := SetRaw t now key value ttlSeconds in
  (true, err, t).

Definition TouchRaw (t : cacheStore) (now_get now_set : Z) (key : bytes)
    (ttlSeconds : Z) : option error * cacheStore :=
  let value := bytesOf (Get (cache t) now_get (string_of_bytes key)) in
  let ttl := ttlDuration ttlSeconds in
  (None, with_cache t (Set_ (cache t) now_set (string_of_bytes key) (ObjBytes value) ttl)).

Definition RemoveRaw (t : cacheStore) (key : bytes) : option error * cacheStore :=
  (None, with_cache t (Delete (cache t) (string_of_bytes key))).

(** The callback of [EnumerateRaw] is a closure too: [V] is what it captures. *)
Definition visitor (V : Type) : Type := RawEntry -> V -> V * bool.

(** How a [range] loop goes through a snapshot. *)
Definition rangeOrder : Type := gmap string Item -> list (string * Item).

Definition fair (order : rangeOrder) : Prop := ∀ m, ranges m (order m).

(** The loop of [doEnumerateRaw] over the pairs the [range] yields. *)
Fixpoint enumerateLoop {V : Type} (prefixStr seekStr : string) (onlyKeys : bool)
    (cb : visitor V) (yielded : list (string * Item)) (v : V) : V :=
  match yielded with
  | [] => v
  | (key, item) :: rest =>
      match Object item with
      | ObjBytes val =>
          if HasPrefix key prefixStr && string_ge key seekStr then
            let re :=
              {| Key := bytes_of_string key;
                 Value := if onlyKeys then None else val;
                 Ttl := Expiration item;
                 Version := Expiration item |} in
            let '(v, continue) := cb re v in
            if continue then enumerateLoop prefixStr seekStr onlyKeys cb rest v
            else v
          else enumerateLoop prefixStr seekStr onlyKeys cb rest v
      | _ => enumerateLoop prefixStr seekStr onlyKeys cb rest v
      end
  end.

Definition doEnumerateRaw {V : Type} (t : cacheStore) (now : Z) (order : rangeOrder)
    (prefix seek : bytes) (batchSize : Z) (onlyKeys : bool)
    (cb : visitor V) (v : V) : option error * V :=
  let prefixStr := string_of_bytes prefix in
  let seekStr := string_of_bytes seek in
  (None, enumerateLoop prefixStr seekStr onlyKeys cb (order (Items (cache t) now)) v).

(** The loop [for j := n-1; j >= 0; j--] of [EnumerateRaw]; [j1] is [j + 1]. *)
Fixpoint visitBackwards {V : Type} (cb : visitor V) (cache : list RawEntry)
    (j1 : nat) (v : V) : V :=
  match j1 with
  | O => v
  | S j =>
      match cache !! j with
      | Some entry =>
          let '(v, continue) := cb entry v in
          if continue then visitBackwards cb cache j v else v
      | None => v
      end
  end.

Definition EnumerateRaw {V : Type} (t : cacheStore) (now : Z) (order : rangeOrder)
    (prefix seek : bytes) (batchSize : Z) (onlyKeys reverse : bool)
    (cb : visitor V) (v : V) : option error * V :=
  if reverse then
    let '(err, cache) :=
      doEnumerateRaw t now order prefix seek batchSize onlyKeys
        (fun entry cache => (cache ++ [entry], true)) [] in
    match err with
    | Some e => (Some e, v)
    | None => (None, visitBackwards cb cache (List.length cache) v)
    end
  else doEnumerateRaw t now order prefix seek batchSize onlyKeys cb v.

Definition Compact (t : cacheStore) (now : Z) : option error * cacheStore :=
  (None, with_cache t (DeleteExpired (cache t) now)).

Definition DropAll (t : cacheStore) : option error * cacheStore :=
  (None, with_cache t (Flush (cache t))).

Definition DropWithPrefix (t : cacheStore) (now : Z) (order : rangeOrder)
    (prefix : bytes) : option error * cacheStore :=
  let prefixStr := string_of_bytes prefix in
  (None,
   with_cache t
     (fold_left
        (fun c kv => if HasPrefix kv.1 prefixStr then Delete c kv.1 else c)
        (order (Items (cache t) now)) (cache t))).

(** ** Observing an enumeration *)

(** A visitor that also keeps the entries it is handed, in order. *)
Definition recording {V : Type} (cb : visitor V) : visitor (V * list RawEntry) :=
  fun entry s =>
    let '(v, continue) := cb entry s.1 in
    ((v, s.2 ++ [entry]), continue).

(** The sequence of entries an enumeration delivers to [cb]. *)
Definition delivered {V : Type} (t : cacheStore) (now : Z) (order : rangeOrder)
    (prefix seek : bytes) (batchSize : Z) (onlyKeys reverse : bool)
    (cb : visitor V) (v : V) : list RawEntry :=
  (EnumerateRaw t now order prefix seek batchSize onlyKeys reverse (recording cb) (v, [])).2.2.

(** A visitor never stops the enumeration early. *)
Definition neverStops {V : Type} (cb : visitor V) : Prop :=
  ∀ entry v, (cb entry v).2 = true.

(** The entries [doEnumerateRaw] selects from the yielded pairs. *)
Definition candidate (prefixStr seekStr : string) (kv : string * Item) : bool :=
  match Object kv.2 with
  | ObjBytes _ => HasPrefix kv.1 prefixStr && string_ge kv.1 seekStr
  | _ => false
  end.

Definition entryOf (onlyKeys : bool) (kv : string * Item) : RawEntry :=
  {| Key := bytes_of_string kv.1;
     Value := match Object kv.2 with
              | ObjBytes val => if onlyKeys then None else val
              | _ => None
              end;
     Ttl := Expiration kv.2;
     Version := Expiration kv.2 |}.

(** What [getImpl] answers for a key the engine does not report. *)
Definition absent (required : bool) : bytes * option error :=
  (None, if required then Some ErrNotExist else None).

(** A mutator that goes on to change the [Key] field of the entry with [f]
    after [cb] has run. *)
Definition rekeyed {A : Type} (f : bytes → bytes) (cb : mutator A) : mutator A :=
  fun entry env =>
    let '(entry, env, commit) := cb entry env in
    ({| Key := f (Key entry);
        Value := Value entry;
        Ttl := Ttl entry;
        Version := Version entry |}, env, commit).

(** The value [IncrementRaw] takes for the counter before it adds [delta]. *)
Definition counterAt (t : cacheStore) (now : Z) (key : bytes) (initial : Z) : Z :=
  match BigEndian.Uint64 (bytesOf (Get (cache t) now (string_of_bytes key))) with
  | Some u => Int64.wrap u
  | None => initial
  end.

(** One call of [IncrementRaw] after the other, one pair of clock readings
    per call; the values returned, in order, and the store left. *)
Fixpoint incrementAll (t : cacheStore) (clocks : list (Z * Z)) (key : bytes)
    (initial delta ttlSeconds : Z) : list Z * cacheStore :=
  match clocks with
  | [] => ([], t)
  | (now_get, now_set) :: rest =>
      let '(prev, _, t) := IncrementRaw t now_get now_set key initial delta ttlSeconds in
      let '(prevs, t) := incrementAll t rest key initial delta ttlSeconds in
      (prev :: prevs, t)
  end.

(** No write of a run of calls has expired when the next call reads: [de] is
    the engine's default expiration, [ttlSeconds] the TTL of the writes. *)
Fixpoint staysLive (de ttlSeconds : Z) (clocks : list (Z * Z)) : Prop :=
  match clocks with
  | [] => True
  | (_, now_set) :: rest =>
      match rest with
      | [] => True
      | (now_get, _) :: _ =>
          expired (mkItem ObjNil (expirationFor de now_set (ttlDuration ttlSeconds)))
            now_get = false
      end ∧ staysLive de ttlSeconds rest
  end.

(** Handing the entries of a sequence to a visitor, first to last, until it
    returns false. *)
Fixpoint visitForward {V : Type} (cb : visitor V) (entries : list RawEntry)
    (v : V) : V :=
  match entries with
  | [] => v
  | entry :: rest =>
      let '(v, continue) := cb entry v in
      if continue then visitForward cb rest v else v
  end.

(** The entries of the pairs of a sequence that [doEnumerateRaw] selects. *)
Definition selected (prefix seek : bytes) (onlyKeys : bool)
    (l : list (string * Item)) : list RawEntry :=
  entryOf onlyKeys
    <$> filter (λ kv, candidate (string_of_bytes prefix) (string_of_bytes seek) kv = true) l.

(** A visitor that takes every entry and keeps nothing. *)
Definition keepGoing : visitor unit := fun _ u => (u, true).

(** ** Histories of a store *)

(** The calls that can change a store, each with the clock readings and the
    iteration order it meets. *)
Inductive operation : Type :=
| DoSet (now : Z) (key value : bytes) (ttlSeconds : Z)
| DoCompareAndSet (now : Z) (key value : bytes) (ttlSeconds version : Z)
| DoIncrement (now_get now_set : Z) (key : bytes) (initial delta ttlSeconds : Z)
| DoUpdate (A : Type) (now_get now_set : Z) (key : bytes) (cb : mutator A) (env : A)
| DoTouch (now_get now_set : Z) (key : bytes) (ttlSeconds : Z)
| DoRemove (key : bytes)
| DoCompact (now : Z)
| DoDropAll
| DoDropWithPrefix (now : Z) (order : rangeOrder) (prefix : bytes).

Definition perform (t : cacheStore) (o : operation) : cacheStore :=
  match o with
  | DoSet now key value ttlSeconds => (SetRaw t now key value ttlSeconds).2
  | DoCompareAndSet now key value ttlSeconds version =>
      (CompareAndSetRaw t now key value ttlSeconds version).2
  | DoIncrement now_get now_set key initial delta ttlSeconds =>
      (IncrementRaw t now_get now_set key initial delta ttlSeconds).2
  | DoUpdate _ now_get now_set key cb env => (UpdateRaw t now_get now_set key cb env).1.2
  | DoTouch now_get now_set key ttlSeconds => (TouchRaw t now_get now_set key ttlSeconds).2
  | DoRemove key => (RemoveRaw t key).2
  | DoCompact now => (Compact t now).2
  | DoDropAll => (DropAll t).2
  | DoDropWithPrefix now order prefix => (DropWithPrefix t now order prefix).2
  end.

(** The store a new store becomes through a history of calls. *)
Definition after (t : cacheStore) (history : list operation) : cacheStore :=
  fold_left perform history t.

(** The call gives the key [k] a value: [Set], [CompareAndSet], [Increment]
    and [Update] of that key do; [Touch] does not. *)
Definition sets (k : string) (o : operation) : Prop :=
  match o with
  | DoSet _ key _ _
  | DoCompareAndSet _ key _ _ _
  | DoIncrement _ _ key _ _ _
  | DoUpdate _ _ _ key _ _ => string_of_bytes key = k
  | _ => False
  end.

Definition neverSet (k : string) (history : list operation) : Prop :=
  Forall (λ o, ¬ sets k o) history.

(** Whatever the engine holds for [k], it is not a byte value other than
    the nil slice. *)
Definition unset (t : cacheStore) (k : string) : Prop :=
  ∀ it, items (cache t) !! k = Some it → Object it = ObjBytes None.

(** Every object the engine holds is a byte slice. *)
Definition onlyBytes (t : cacheStore) : Prop :=
  ∀ k it, items (cache t) !! k = Some it → ∃ b, Object it = ObjBytes b.

(** A mutator that leaves the [Ttl] field of the entry as it was handed. *)
Definition keepsTtl {A : Type} (cb : mutator A) : Prop :=
  ∀ entry env, Ttl (cb entry env).1.1 = Ttl entry.

(** * Properties *)

(** ** Machine integers *)

Lemma wrap_in_range (z : Z) : Int64.in_range z → Int64.wrap z = z.
Proof.
  unfold Int64.in_range, Int64.wrap, Int64.min_signed, Int64.max_signed, Int64.modulus.
  intros Hz. rewrite Z.mod_small; lia.
Qed.

Lemma wrap_is_in_range (z : Z) : Int64.in_range (Int64.wrap z).
Proof.
  unfold Int64.in_range, Int64.wrap, Int64.min_signed, Int64.max_signed, Int64.modulus.
  pose proof (Z.mod_pos_bound (z + 2 ^ 63) (2 ^ 64)) as Hb. lia.
Qed.

Lemma unsigned_wrap (z : Z) : Int64.unsigned (Int64.wrap z) = Int64.unsigned z.
Proof.
  unfold Int64.unsigned, Int64.wrap, Int64.modulus.
  replace ((z + 2 ^ 63) `mod` 2 ^ 64 - 2 ^ 63)%Z
    with ((z + 2 ^ 63) `mod` 2 ^ 64 + 2 ^ 63 + (-1) * 2 ^ 64)%Z by lia.
  rewrite Z.mod_add by lia.
  rewrite Zplus_mod_idemp_l.
  replace (z + 2 ^ 63 + 2 ^ 63)%Z with (z + 1 * 2 ^ 64)%Z by lia.
  by rewrite Z.mod_add by lia.
Qed.

(** ** The engine *)

Section engine_facts.
Context (c : Cache) (now : Z) (k : string).

Lemma Get_absent : items c !! k = None → Get c now k = (ObjNil, false).
Proof. unfold Get. by intros ->. Qed.

Lemma Get_Set_eq (x : Interface) (d : Z) (later : Z) :
  Get (Set_ c now k x d) later k =
    if expired (mkItem x (expirationFor (defaultExpiration c) now d)) later
    then (ObjNil, false)
    else (x, true).
Proof. unfold Get, Set_. cbn. by rewrite lookup_insert_eq. Qed.

Lemma Get_Set_ne (x : Interface) (d : Z) (later : Z) (k' : string) :
  k ≠ k' → Get (Set_ c now k x d) later k' = Get c later k'.
Proof. intros Hne. unfold Get, Set_. cbn. by rewrite lookup_insert_ne. Qed.

Lemma lookup_Items (it : Item) :
  Items c now !! k = Some it ↔ items c !! k = Some it ∧ expired it now = false.
Proof. unfold Items. by rewrite map_lookup_filter_Some. Qed.

Lemma Get_found (x : Interface) :
  Get c now k = (x, true) ↔ ∃ it, Items c now !! k = Some it ∧ Object it = x.
Proof.
  unfold Get. split.
  - destruct (items c !! k) as [it|] eqn:Hk; [|done].
    destruct (expired it now) eqn:He; [done|].
    intros [= <-]. exists it. by rewrite lookup_Items.
  - intros (it & [Hk He]%lookup_Items & <-). by rewrite Hk, He.
Qed.

End engine_facts.

Lemma expired_mono (it : Item) (now later : Z) :
  (now ≤ later)%Z → expired it now = true → expired it later = true.
Proof.
  unfold expired. intros Hle [H0 H1]%andb_prop.
  apply andb_true_intro. split; [done|]. apply Z.ltb_lt. apply Z.ltb_lt in H1. lia.
Qed.

(** ** Durations *)

Lemma ttlDuration_no_ttl (ttlSeconds : Z) :
  (ttlSeconds ≤ 0)%Z → ttlDuration ttlSeconds = NoExpiration.
Proof.
  intros Hle. unfold ttlDuration.
  destruct (0 <? ttlSeconds)%Z eqn:Hlt; [|done]. apply Z.ltb_lt in Hlt. lia.
Qed.

Lemma ttlDuration_representable (ttlSeconds : Z) :
  (0 < ttlSeconds)%Z → (ttlSeconds * Second ≤ Int64.max_signed)%Z →
  ttlDuration ttlSeconds = (ttlSeconds * Second)%Z.
Proof.
  intros Hpos Hmax. unfold ttlDuration, Int64.mul.
  destruct (0 <? ttlSeconds)%Z eqn:Hlt; [|apply Z.ltb_ge in Hlt; lia].
  rewrite wrap_in_range; [lia|].
  unfold Int64.in_range, Int64.min_signed, Int64.max_signed, Second in *. lia.
Qed.

Lemma expirationFor_no_ttl (de now : Z) :
  expirationFor de now NoExpiration = 0%Z.
Proof. reflexivity. Qed.

Lemma expirationFor_representable (de now d : Z) :
  (0 < d)%Z → (0 ≤ now)%Z → (now + d ≤ Int64.max_signed)%Z →
  expirationFor de now d = (now + d)%Z.
Proof.
  intros Hd Hnow Hmax. unfold expirationFor, DefaultExpiration, Int64.add.
  destruct (d =? 0)%Z eqn:Hz; [apply Z.eqb_eq in Hz; lia|].
  destruct (0 <? d)%Z eqn:Hlt; [|apply Z.ltb_ge in Hlt; lia].
  apply wrap_in_range.
  unfold Int64.in_range, Int64.min_signed, Int64.max_signed in *. lia.
Qed.

(** ** Reads *)

Lemma getImpl_absent (t : cacheStore) (now : Z) (key : bytes) (required : bool) :
  Get (cache t) now (string_of_bytes key) = (ObjNil, false) →
  getImpl t now key required = (None, if required then Some ErrNotExist else None).
Proof. unfold getImpl. intros ->. by destruct required. Qed.

Lemma getImpl_bytes (t : cacheStore) (now : Z) (key b : bytes) (required : bool) :
  Get (cache t) now (string_of_bytes key) = (ObjBytes b, true) →
  getImpl t now key required =
    match b, required with
    | None, true => (None, Some ErrNotExist)
    | _, _ => (b, None)
    end.
Proof. unfold getImpl. by intros ->. Qed.

(** ** Set, then Get *)

Lemma Get_after_SetRaw (t : cacheStore) (now later : Z) (k v : bytes) (ttl : Z) :
  Get (cache (SetRaw t now k v ttl).2) later (string_of_bytes k) =
    if expired (mkItem (ObjBytes v)
                  (expirationFor (defaultExpiration (cache t)) now (ttlDuration ttl)))
         later
    then (ObjNil, false) else (ObjBytes v, true).
Proof. unfold SetRaw. cbn. apply Get_Set_eq. Qed.

(** C1, as amended.  [SetRaw] never fails.  With [ttl <= 0] the entry never
    expires: a later [getImpl], at any clock reading, returns [v].  With
    [ttl > 0], a clock at or after the epoch and an expiry instant
    [now + ttl * Second] that a signed 64-bit nanosecond count can hold, a
    [getImpl] at a reading up to that instant returns [v] and one after it
    answers as for an absent key.  Where [v] is returned it comes with no
    error, unless [v] is the nil slice and the read is [required]. *)
Theorem set_then_get (t : cacheStore) (now : Z) (k v : bytes) (ttl : Z)
    (required : bool) :
  (0 < ttl → 0 ≤ now ∧ now + ttl * Second ≤ Int64.max_signed)%Z →
  (SetRaw t now k v ttl).1 = None ∧
  (∀ later,
     (ttl ≤ 0 ∨ later ≤ now + ttl * Second)%Z →
     (getImpl (SetRaw t now k v ttl).2 later k required).1 = v ∧
     (v ≠ None ∨ required = false →
      getImpl (SetRaw t now k v ttl).2 later k required = (v, None))) ∧
  (∀ later,
     (0 < ttl ∧ now + ttl * Second < later)%Z →
     getImpl (SetRaw t now k v ttl).2 later k required = absent required).
Proof.
  intros Hrep. split; [done|]. split.
  - intros later Hlive.
    assert (Get (cache (SetRaw t now k v ttl).2) later (string_of_bytes k)
            = (ObjBytes v, true)) as HG.
    { rewrite Get_after_SetRaw.
      destruct (Z_le_gt_dec ttl 0) as [Hle|Hgt].
      - by rewrite ttlDuration_no_ttl by done.
      - destruct Hrep as [Hnow Hmax]; [lia|]. destruct Hlive as [?|Hlater]; [lia|].
        rewrite ttlDuration_representable by lia.
        rewrite expirationFor_representable by (unfold Second in *; lia).
        unfold expired; cbn.
        replace (now + ttl * Second <? later)%Z with false
          by (symmetry; apply Z.ltb_ge; lia).
        by rewrite andb_false_r. }
    rewrite (getImpl_bytes _ _ _ _ _ HG). split.
    + by destruct v, required.
    + intros [Hv| ->]; [by destruct v, required|by destruct v].
  - intros later [Hpos Hlater]. destruct Hrep as [Hnow Hmax]; [done|].
    apply getImpl_absent. rewrite Get_after_SetRaw.
    rewrite ttlDuration_representable by lia.
    rewrite expirationFor_representable by (unfold Second in *; lia).
    unfold expired; cbn.
    replace (0 <? now + ttl * Second)%Z with true
      by (symmetry; apply Z.ltb_lt; unfold Second; lia).
    by replace (now + ttl * Second <? later)%Z with true
      by (symmetry; apply Z.ltb_lt; lia).
Qed.

Lemma set_then_get_witness :
  let t := NewDefault "s" in
  let k := bytes_of_string "k" in
  let v := bytes_of_string "v" in
  (SetRaw t 100 k v 5).1 = None ∧
  (∀ later,
     (5 ≤ 0 ∨ later ≤ 100 + 5 * Second)%Z →
     (getImpl (SetRaw t 100 k v 5).2 later k true).1 = v ∧
     (v ≠ None ∨ true = false →
      getImpl (SetRaw t 100 k v 5).2 later k true = (v, None))) ∧
  (∀ later,
     (0 < 5 ∧ 100 + 5 * Second < later)%Z →
     getImpl (SetRaw t 100 k v 5).2 later k true = absent true).
Proof.
  intros t k v. apply (set_then_get t 100 k v 5 true).
  intros _. unfold Int64.max_signed, Second. lia.
Defined.

(** C1, as stated, fails where [ttl] seconds do not fit a [time.Duration]:
    18446744074 seconds wrap to 290448384 ns, and a read one second after
    the write (centuries before the stated expiry) finds nothing.  It also
    fails for the nil value read with [required]: the read that follows the
    write fails with [ErrNotExist]. *)
Lemma set_then_get_counterexample :
  let t := NewDefault "s" in
  let k := bytes_of_string "k" in
  let v := bytes_of_string "v" in
  let now := 1700000000000000000%Z in
  let ttl := 18446744074%Z in
  ((0 < ttl ≤ Int64.max_signed)%Z ∧
   (now + Second < now + ttl * Second)%Z ∧
   getImpl (SetRaw t now k v ttl).2 (now + Second) k false = (None, None) ∧
   getImpl (SetRaw t now k v ttl).2 (now + Second) k true = (None, Some ErrNotExist)) ∧
  getImpl (SetRaw t now k None 0).2 now k true = (None, Some ErrNotExist).
Proof.
  cbv zeta. split; [|vm_compute; reflexivity].
  split; [done|]. split; [done|]. split; vm_compute; reflexivity.
Qed.

(** ** CompareAndSet *)

(** C4.  [CompareAndSetRaw] reports success with no error and leaves the
    store exactly as [SetRaw] with the same key, value and TTL does, whatever
    [version] it is given. *)
Theorem compare_and_set_is_set (t : cacheStore) (now : Z) (key value : bytes)
    (ttlSeconds version : Z) :
  CompareAndSetRaw t now key value ttlSeconds version
    = (true, None, (SetRaw t now key value ttlSeconds).2) ∧
  (SetRaw t now key value ttlSeconds).1 = None ∧
  ∀ version', CompareAndSetRaw t now key value ttlSeconds version'
              = CompareAndSetRaw t now key value ttlSeconds version.
Proof. done. Qed.

(** ** Reading keys that hold nothing *)

(** C8, as amended.  For a key the engine reports with a byte value of
    length zero: a read that is not required returns that value and no
    error; a required read returns the value and no error when it is the
    empty, non-nil slice, and fails with [ErrNotExist] when it is the nil
    slice. *)
Theorem get_present_without_bytes (t : cacheStore) (now : Z) (key b : bytes) :
  Get (cache t) now (string_of_bytes key) = (ObjBytes b, true) →
  len b = 0%Z →
  getImpl t now key false = (b, None) ∧
  (b = Some [] → getImpl t now key true = (Some [], None)) ∧
  (b = None → getImpl t now key true = (None, Some ErrNotExist)).
Proof.
  intros HG _. rewrite !(getImpl_bytes _ _ _ _ _ HG).
  split; [by destruct b|]. split; by intros ->.
Qed.

Lemma get_present_without_bytes_witness :
  let b : bytes := Some [] in
  let t := (SetRaw (NewDefault "s") 7 (bytes_of_string "k") b 0).2 in
  getImpl t 9 (bytes_of_string "k") false = (b, None) ∧
  (b = Some [] → getImpl t 9 (bytes_of_string "k") true = (Some [], None)) ∧
  (b = None → getImpl t 9 (bytes_of_string "k") true = (None, Some ErrNotExist)).
Proof.
  intros b t. apply (get_present_without_bytes t 9 (bytes_of_string "k") b).
  - vm_compute. reflexivity.
  - reflexivity.
Defined.

(** C8, as stated, fails for the nil slice: after [TouchRaw] on a key of a
    new store the engine holds the key, with a nil byte value, and a
    required read of it fails with [ErrNotExist]. *)
Lemma get_present_nil_counterexample :
  let k := bytes_of_string "k" in
  let t := (TouchRaw (NewDefault "s") 7 7 k 0).2 in
  items (cache t) !! string_of_bytes k = Some (mkItem (ObjBytes None) 0) ∧
  Get (cache t) 9 (string_of_bytes k) = (ObjBytes None, true) ∧
  getImpl t 9 k true = (None, Some ErrNotExist).
Proof. cbv zeta. split; [|split]; vm_compute; reflexivity. Qed.

(** ** Update *)

Lemma UpdateRaw_unfold {A : Type} (t : cacheStore) (now_get now_set : Z)
    (key : bytes) (cb : mutator A) (env : A) :
  UpdateRaw t now_get now_set key cb env =
    let r := cb (currentEntry t now_get key) env in
    if r.2 then
      (None,
       with_cache t (Set_ (cache t) now_set (string_of_bytes key)
                       (ObjBytes (Value r.1.1)) (ttlDuration (Ttl r.1.1))),
       r.1.2)
    else (Some ErrCanceled, t, r.1.2).
Proof.
  unfold UpdateRaw. cbv zeta.
  destruct (cb (currentEntry t now_get key) env) as [[e a] []]; done.
Qed.

(** C2.  When the mutator returns false on the entry [UpdateRaw] hands it,
    [UpdateRaw] fails with [ErrCanceled] and returns the store it was given:
    every later read of any key, [key] included, answers as it would have
    without the call.  The mutator is any function of the entry and of what
    its closure captures; it may assign all four fields of the entry. *)
Theorem update_canceled {A : Type} (t : cacheStore) (now_get now_set : Z)
    (key : bytes) (cb : mutator A) (env : A) :
  (cb (currentEntry t now_get key) env).2 = false →
  (UpdateRaw t now_get now_set key cb env).1.1 = Some ErrCanceled ∧
  (UpdateRaw t now_get now_set key cb env).1.2 = t ∧
  ∀ later k required,
    getImpl (UpdateRaw t now_get now_set key cb env).1.2 later k required
      = getImpl t later k required.
Proof.
  intros Hcb. rewrite UpdateRaw_unfold. cbv zeta. rewrite Hcb. done.
Qed.

Lemma update_canceled_witness :
  let t := (SetRaw (NewDefault "s") 7 (bytes_of_string "k") (bytes_of_string "v") 0).2 in
  let cb : mutator unit :=
    fun entry env =>
      ({| Key := Key entry; Value := bytes_of_string "w"; Ttl := 3; Version := 1 |},
       env, false) in
  (UpdateRaw t 8 9 (bytes_of_string "k") cb tt).1.1 = Some ErrCanceled ∧
  (UpdateRaw t 8 9 (bytes_of_string "k") cb tt).1.2 = t ∧
  ∀ later k required,
    getImpl (UpdateRaw t 8 9 (bytes_of_string "k") cb tt).1.2 later k required
      = getImpl t later k required.
Proof.
  intros t cb. apply (update_canceled t 8 9 (bytes_of_string "k") cb tt). reflexivity.
Defined.

(** C10.  [UpdateRaw] addresses the engine with the key it was called with:
    a mutator that also assigns the entry's [Key] field gives the same
    result as one that does not, a committed write is found under the key of
    the call, carrying the value the mutator left in the entry, and the item
    of every other key is the one that was there before. *)
Theorem update_addresses_its_key {A : Type} (t : cacheStore) (now_get now_set : Z)
    (key : bytes) (cb : mutator A) (env : A) :
  (∀ f, UpdateRaw t now_get now_set key (rekeyed f cb) env
        = UpdateRaw t now_get now_set key cb env) ∧
  ((cb (currentEntry t now_get key) env).2 = true →
   ∃ e, items (cache (UpdateRaw t now_get now_set key cb env).1.2)
          !! string_of_bytes key
        = Some (mkItem (ObjBytes (Value (cb (currentEntry t now_get key) env).1.1)) e)) ∧
  (∀ k', k' ≠ string_of_bytes key →
         items (cache (UpdateRaw t now_get now_set key cb env).1.2) !! k'
         = items (cache t) !! k').
Proof.
  split; [|split].
  - intros f. rewrite !UpdateRaw_unfold. unfold rekeyed.
    destruct (cb (currentEntry t now_get key) env) as [[e a] []]; done.
  - intros Hcb. rewrite UpdateRaw_unfold. cbv zeta. rewrite Hcb. cbn.
    eexists. apply lookup_insert_eq.
  - intros k' Hne. rewrite UpdateRaw_unfold. cbv zeta.
    destruct (cb (currentEntry t now_get key) env).2; cbn; [|done].
    by rewrite lookup_insert_ne.
Qed.

(** ** Big-endian counters *)

Lemma wrap_add_l (a b : Z) : Int64.wrap (Int64.wrap a + b) = Int64.wrap (a + b).
Proof.
  unfold Int64.wrap, Int64.modulus. f_equal.
  replace ((a + 2 ^ 63) `mod` 2 ^ 64 - 2 ^ 63 + b + 2 ^ 63)%Z
    with ((a + 2 ^ 63) `mod` 2 ^ 64 + b)%Z by lia.
  rewrite Zplus_mod_idemp_l. f_equal. lia.
Qed.

Lemma wrap_unsigned (z : Z) : Int64.wrap (Int64.unsigned z) = Int64.wrap z.
Proof.
  unfold Int64.wrap, Int64.unsigned, Int64.modulus. f_equal.
  by rewrite Zplus_mod_idemp_l.
Qed.

Module BigEndianFacts.
Import BigEndian.

Lemma Z_of_byte_of_Z (z : Z) : Z_of_byte (byte_of_Z z) = (z mod 256)%Z.
Proof.
  unfold Z_of_byte, byte_of_Z.
  pose proof (Z.mod_pos_bound z 256 ltac:(lia)) as Hb.
  destruct (Byte.of_N (Z.to_N (z `mod` 256))) as [b|] eqn:Hof.
  - apply Byte.to_of_N in Hof. rewrite Hof. lia.
  - apply Byte.of_N_None_iff in Hof. lia.
Qed.

Lemma decode_snoc (l : list byte) (b : byte) :
  decode (l ++ [b]) = (decode l * 256 + Z_of_byte b)%Z.
Proof. unfold decode. by rewrite fold_left_app. Qed.

Lemma length_encode (n : nat) (z : Z) : List.length (encode n z) = n.
Proof.
  revert z. induction n as [|n IH]; intros z; [done|].
  cbn [encode]. rewrite length_app, IH. cbn. lia.
Qed.

Lemma decode_encode (n : nat) (z : Z) :
  decode (encode n z) = (z mod 256 ^ Z.of_nat n)%Z.
Proof.
  revert z. induction n as [|n IH]; intros z.
  - cbn. by rewrite Z.mod_1_r.
  - cbn [encode]. rewrite decode_snoc, IH, Z_of_byte_of_Z.
    rewrite Nat2Z.inj_succ, Z.pow_succ_r by lia.
    rewrite Z.rem_mul_r by lia. lia.
Qed.

Lemma Uint64_PutUint64 (v : Z) : Uint64 (PutUint64 v) = Some (Int64.unsigned v).
Proof.
  unfold Uint64, PutUint64, len. rewrite length_encode.
  change (8 <=? Z.of_nat 8)%Z with true. cbv iota.
  rewrite firstn_all2 by (rewrite length_encode; lia).
  by rewrite decode_encode.
Qed.

Lemma Uint64_short (b : bytes) : (len b < 8)%Z → Uint64 b = None.
Proof.
  intros Hlt. unfold Uint64. destruct b as [l|]; [|done].
  destruct (8 <=? len (Some l))%Z eqn:Hle; [apply Z.leb_le in Hle; lia|done].
Qed.

End BigEndianFacts.

(** ** Increment *)

Lemma unsigned_add_wrap (a b : Z) :
  Int64.unsigned (Int64.wrap a + b) = Int64.unsigned (a + b).
Proof. by rewrite <- unsigned_wrap, wrap_add_l, unsigned_wrap. Qed.

Lemma counterAt_in_range (t : cacheStore) (now : Z) (key : bytes) (initial : Z) :
  Int64.in_range initial → Int64.in_range (counterAt t now key initial).
Proof.
  intros Hi. unfold counterAt.
  destruct (BigEndian.Uint64 _); [apply wrap_is_in_range|done].
Qed.

Lemma IncrementRaw_step (t : cacheStore) (now_get now_set : Z) (key : bytes)
    (initial delta ttlSeconds : Z) :
  IncrementRaw t now_get now_set key initial delta ttlSeconds =
    (counterAt t now_get key initial, None,
     (SetRaw t now_set key
        (BigEndian.PutUint64
           (Int64.unsigned (counterAt t now_get key initial + delta)))
        ttlSeconds).2).
Proof.
  unfold IncrementRaw. rewrite UpdateRaw_unfold. cbn.
  unfold counterAt, Int64.add. by rewrite unsigned_wrap.
Qed.

Lemma counterAt_after_write (t : cacheStore) (now_set now_get : Z) (key : bytes)
    (v initial ttlSeconds : Z) :
  expired (mkItem ObjNil
             (expirationFor (defaultExpiration (cache t)) now_set
                (ttlDuration ttlSeconds))) now_get = false →
  counterAt (SetRaw t now_set key (BigEndian.PutUint64 v) ttlSeconds).2
    now_get key initial = Int64.wrap v.
Proof.
  intros Hlive. unfold counterAt. rewrite Get_after_SetRaw.
  unfold expired in *. cbn [Expiration] in *. rewrite Hlive. cbn [bytesOf].
  by rewrite BigEndianFacts.Uint64_PutUint64, wrap_unsigned.
Qed.

Lemma staysLive_no_ttl (de ttlSeconds : Z) (clocks : list (Z * Z)) :
  (ttlSeconds ≤ 0)%Z → staysLive de ttlSeconds clocks.
Proof.
  intros Hle. induction clocks as [|[g s] rest IH]; [done|].
  cbn [staysLive]. split; [|done].
  destruct rest as [|[g' s'] rest']; [done|].
  by rewrite ttlDuration_no_ttl by done.
Qed.

(** The values a run of calls returns and the counter it leaves, from the
    value the first call reads. *)
Lemma incrementAll_run (key : bytes) (initial delta ttlSeconds : Z) :
  Int64.in_range initial →
  ∀ (clocks : list (Z * Z)) (t : cacheStore),
    staysLive (defaultExpiration (cache t)) ttlSeconds clocks →
    let first := match clocks with
                 | [] => initial
                 | (now_get, _) :: _ => counterAt t now_get key initial
                 end in
    (incrementAll t clocks key initial delta ttlSeconds).1
      = map (λ i, Int64.wrap (first + Z.of_nat i * delta))
          (seq 0 (List.length clocks)) ∧
    (clocks ≠ [] →
     ∃ e, items (cache (incrementAll t clocks key initial delta ttlSeconds).2)
            !! string_of_bytes key
          = Some (mkItem
                    (ObjBytes
                       (BigEndian.PutUint64
                          (Int64.unsigned
                             (first + Z.of_nat (List.length clocks) * delta))))
                    e)).
Proof.
  intros Hinit. induction clocks as [|[g s] rest IH]; intros t Hlive; [done|].
  cbn [incrementAll]. rewrite IncrementRaw_step.
  set (m := counterAt t g key initial).
  set (t' := (SetRaw t s key
                (BigEndian.PutUint64 (Int64.unsigned (m + delta))) ttlSeconds).2).
  destruct Hlive as [Hnext Hlive].
  specialize (IH t' Hlive).
  destruct (incrementAll t' rest key initial delta ttlSeconds) as [prevs t''] eqn:Hrun.
  cbn [fst snd] in *. cbv zeta in IH. destruct IH as [IHprevs IHstored].
  assert (Int64.wrap (m + Z.of_nat 0 * delta) = m) as Hm.
  { cbn. rewrite Z.add_0_r. apply wrap_in_range, counterAt_in_range, Hinit. }
  destruct rest as [|[g' s'] rest'].
  - cbn in Hrun. injection Hrun as <- <-. split.
    + cbn [List.length seq map]. by rewrite Hm.
    + intros _. eexists. subst t'. cbn.
      rewrite lookup_insert_eq.
      replace (m + Z.of_nat 1 * delta)%Z with (m + delta)%Z by lia. done.
  - assert (counterAt t' g' key initial = Int64.wrap (m + delta)) as Hnextval.
    { subst t'. rewrite counterAt_after_write by done. apply wrap_unsigned. }
    rewrite Hnextval in IHprevs, IHstored. split.
    + change (List.length ((g, s) :: (g', s') :: rest'))
        with (S (List.length ((g', s') :: rest'))).
      rewrite <- cons_seq, <- seq_shift. cbn [map]. rewrite Hm, map_map. f_equal.
      rewrite IHprevs. apply map_ext. intros i.
      rewrite wrap_add_l.
      replace (m + delta + Z.of_nat i * delta)%Z
        with (m + Z.of_nat (S i) * delta)%Z by lia. done.
    + intros _. destruct IHstored as [e He]; [done|]. exists e. rewrite He.
      rewrite unsigned_add_wrap.
      replace (m + delta + Z.of_nat (List.length ((g', s') :: rest')) * delta)%Z
        with (m + Z.of_nat (List.length ((g, s) :: (g', s') :: rest')) * delta)%Z
        by (cbn [List.length]; lia). done.
Qed.

Lemma getImpl_not_required (t : cacheStore) (now : Z) (key : bytes) :
  getImpl t now key false = (bytesOf (Get (cache t) now (string_of_bytes key)), None).
Proof. unfold getImpl. by destruct (bytesOf _). Qed.

Lemma counterAt_decode (t : cacheStore) (now : Z) (key : bytes) (initial : Z) :
  counterAt t now key initial =
    let cur := (getImpl t now key false).1 in
    if (8 <=? len cur)%Z
    then Int64.wrap (BigEndian.decode (firstn 8 (default [] cur)))
    else initial.
Proof.
  rewrite getImpl_not_required. unfold counterAt, BigEndian.Uint64. cbn [fst].
  destruct (bytesOf _) as [l|]; [|done]. cbn [default id].
  by destruct (8 <=? len (Some l))%Z.
Qed.

(** C3.  One call of [IncrementRaw] takes as counter the first eight bytes
    of the value a read of the key returns, as a big-endian integer, or
    [initial] when that value is nil or shorter than eight bytes; it returns
    this counter with no error, and leaves the store as [SetRaw] does with
    the key, the TTL and the eight big-endian bytes of the counter plus
    [delta].  Hence, on a key the engine holds no item for, [n] calls in a
    row with [initial = 0] and [delta = 1] return 0, 1, ..., n-1 and leave
    under the key the eight bytes that encode [n]: always so when the calls
    give no TTL ([ttlSeconds <= 0], as the [Increment] builder does), and,
    with a TTL, when no write has expired by the time the next call reads.
    The count [n] is within the range of the [int64] return value. *)
Theorem increment_counts (t : cacheStore) (key : bytes) :
  (∀ now_get now_set initial delta ttlSeconds,
     let cur := (getImpl t now_get key false).1 in
     let prev :=
       if (8 <=? len cur)%Z
       then Int64.wrap (BigEndian.decode (firstn 8 (default [] cur)))
       else initial in
     let sum := BigEndian.PutUint64 (Int64.unsigned (prev + delta)) in
     IncrementRaw t now_get now_set key initial delta ttlSeconds
       = (prev, None, (SetRaw t now_set key sum ttlSeconds).2) ∧
     len sum = 8%Z ∧
     BigEndian.Uint64 sum = Some ((prev + delta) `mod` 2 ^ 64)%Z) ∧
  (∀ clocks ttlSeconds,
     items (cache t) !! string_of_bytes key = None →
     (ttlSeconds ≤ 0)%Z ∨ staysLive (defaultExpiration (cache t)) ttlSeconds clocks →
     (Z.of_nat (List.length clocks) ≤ 2 ^ 63)%Z →
     let n := List.length clocks in
     (incrementAll t clocks key 0 1 ttlSeconds).1 = map Z.of_nat (seq 0 n) ∧
     (clocks ≠ [] →
      ∃ e, items (cache (incrementAll t clocks key 0 1 ttlSeconds).2)
             !! string_of_bytes key
           = Some (mkItem (ObjBytes (BigEndian.PutUint64 (Z.of_nat n))) e)) ∧
     BigEndian.Uint64 (BigEndian.PutUint64 (Z.of_nat n)) = Some (Z.of_nat n)).
Proof.
  split.
  - intros now_get now_set initial delta ttlSeconds. cbv zeta.
    rewrite IncrementRaw_step, counterAt_decode. cbv zeta. split; [done|]. split.
    + unfold BigEndian.PutUint64, len. by rewrite BigEndianFacts.length_encode.
    + rewrite BigEndianFacts.Uint64_PutUint64. unfold Int64.unsigned, Int64.modulus.
      by rewrite Z.mod_mod by lia.
  - intros clocks ttlSeconds Hfresh Hlive Hn. cbv zeta.
    assert (staysLive (defaultExpiration (cache t)) ttlSeconds clocks) as Hlive'
      by (destruct Hlive; [by apply staysLive_no_ttl|done]).
    clear Hlive. rename Hlive' into Hlive.
    assert (Int64.in_range 0) as H0 by (unfold Int64.in_range; done).
    destruct (incrementAll_run key 0 1 ttlSeconds H0 clocks t Hlive) as [Hprevs Hstored].
    assert (match clocks with
            | [] => 0%Z
            | (now_get, _) :: _ => counterAt t now_get key 0
            end = 0%Z) as Hfirst.
    { destruct clocks as [|[g s] rest]; [done|].
      unfold counterAt. by rewrite (Get_absent _ _ _ Hfresh). }
    rewrite Hfirst in Hprevs, Hstored.
    assert (∀ i : nat, (Z.of_nat i < 2 ^ 64)%Z → Int64.unsigned (Z.of_nat i) = Z.of_nat i)
      as Hunsigned.
    { intros i Hi. unfold Int64.unsigned, Int64.modulus. apply Z.mod_small. lia. }
    split; [|split].
    + rewrite Hprevs. apply map_ext_in. intros i Hi%in_seq.
      rewrite Z.add_0_l, Z.mul_1_r. apply wrap_in_range.
      unfold Int64.in_range, Int64.min_signed, Int64.max_signed. lia.
    + intros Hne. destruct (Hstored Hne) as [e He]. exists e. rewrite He.
      rewrite Z.add_0_l, Z.mul_1_r, Hunsigned; [done|lia].
    + rewrite BigEndianFacts.Uint64_PutUint64, Hunsigned; [done|lia].
Qed.

Lemma increment_counts_witness :
  let t := NewDefault "s" in
  let key := bytes_of_string "hits" in
  let clocks := [(10, 11); (20, 21); (30, 31)]%Z in
  IncrementRaw t 10 11 key 5 2 0
    = (5%Z, None, (SetRaw t 11 key (BigEndian.PutUint64 7) 0).2) ∧
  (incrementAll t clocks key 0 1 0).1 = [0; 1; 2]%Z ∧
  (∃ e, items (cache (incrementAll t clocks key 0 1 0).2) !! string_of_bytes key
        = Some (mkItem (ObjBytes (BigEndian.PutUint64 3)) e)) ∧
  BigEndian.Uint64 (BigEndian.PutUint64 3) = Some 3%Z.
Proof.
  intros t key clocks.
  destruct (increment_counts t key) as [Hone Hmany].
  destruct (Hone 10 11 5 2 0)%Z as [Heq _].
  destruct (Hmany clocks 0%Z) as (Hprevs & Hstored & Hdec).
  - reflexivity.
  - left. lia.
  - vm_compute. discriminate.
  - split; [exact Heq|]. split; [exact Hprevs|]. split; [|exact Hdec].
    apply Hstored. discriminate.
Defined.

(** ** Enumeration *)

Section visiting.
Context {V : Type} (cb : visitor V).

Lemma enumerateLoop_selected (prefix seek : bytes) (onlyKeys : bool)
    (yielded : list (string * Item)) (v : V) :
  enumerateLoop (string_of_bytes prefix) (string_of_bytes seek) onlyKeys cb yielded v
    = visitForward cb (selected prefix seek onlyKeys yielded) v.
Proof.
  unfold selected. revert v.
  induction yielded as [|[key item] rest IH]; intros v; [done|].
  cbn [enumerateLoop]. rewrite filter_cons.
  destruct (decide (candidate (string_of_bytes prefix) (string_of_bytes seek)
                      (key, item) = true)) as [Hsel|Hsel];
    unfold candidate in Hsel; cbn [fst snd] in Hsel.
  - cbn [fmap list_fmap visitForward]. unfold entryOf at 1. cbn [fst snd].
    destruct (Object item) as [|val|other]; [done| |done]. rewrite Hsel.
    destruct (cb _ v) as [v' []]; [apply IH|done].
  - destruct (Object item) as [|val|other]; [apply IH| |apply IH].
    destruct (HasPrefix key (string_of_bytes prefix)
              && string_ge key (string_of_bytes seek)); [done|apply IH].
Qed.

Lemma visitBackwards_take (entries : list RawEntry) (j : nat) (v : V) :
  j ≤ List.length entries →
  visitBackwards cb entries j v = visitForward cb (rev (take j entries)) v.
Proof.
  revert v. induction j as [|j IH]; intros v Hj; [by rewrite take_0|].
  cbn [visitBackwards].
  destruct (lookup_lt_is_Some_2 entries j ltac:(lia)) as [entry Hentry].
  rewrite Hentry, (take_S_r _ _ _ Hentry), rev_app_distr. cbn [rev app visitForward].
  destruct (cb entry v) as [v' []]; [apply IH; lia|done].
Qed.

Lemma visitBackwards_rev (entries : list RawEntry) (v : V) :
  visitBackwards cb entries (List.length entries) v = visitForward cb (rev entries) v.
Proof. rewrite visitBackwards_take by done. by rewrite take_ge. Qed.

Lemma visitForward_recording (entries log : list RawEntry) (v : V) :
  neverStops cb →
  visitForward (recording cb) entries (v, log)
    = (visitForward cb entries v, log ++ entries).
Proof.
  intros Hcb. revert v log. induction entries as [|entry rest IH]; intros v log.
  - by rewrite app_nil_r.
  - cbn [visitForward]. unfold recording at 1. cbn [fst snd].
    specialize (Hcb entry v). destruct (cb entry v) as [v' c]. cbn in Hcb. subst c.
    rewrite IH. by rewrite <- app_assoc.
Qed.

End visiting.

Lemma visitForward_collect (entries acc : list RawEntry) :
  visitForward (λ entry cache, (cache ++ [entry], true)) entries acc = acc ++ entries.
Proof.
  revert acc. induction entries as [|entry rest IH]; intros acc.
  - by rewrite app_nil_r.
  - cbn [visitForward]. rewrite IH. by rewrite <- app_assoc.
Qed.

(** What [EnumerateRaw] does, in terms of the entries selected from the
    sequence the [range] yields. *)
Lemma EnumerateRaw_selected {V : Type} (t : cacheStore) (now : Z) (order : rangeOrder)
    (prefix seek : bytes) (batchSize : Z) (onlyKeys reverse : bool)
    (cb : visitor V) (v : V) :
  EnumerateRaw t now order prefix seek batchSize onlyKeys reverse cb v =
    let all := selected prefix seek onlyKeys (order (Items (cache t) now)) in
    (None, visitForward cb (if reverse then rev all else all) v).
Proof.
  unfold EnumerateRaw, doEnumerateRaw. destruct reverse.
  - rewrite enumerateLoop_selected, visitForward_collect, app_nil_l.
    by rewrite visitBackwards_rev.
  - by rewrite enumerateLoop_selected.
Qed.

Lemma delivered_selected {V : Type} (t : cacheStore) (now : Z) (order : rangeOrder)
    (prefix seek : bytes) (batchSize : Z) (onlyKeys reverse : bool)
    (cb : visitor V) (v : V) :
  neverStops cb →
  delivered t now order prefix seek batchSize onlyKeys reverse cb v =
    let all := selected prefix seek onlyKeys (order (Items (cache t) now)) in
    if reverse then rev all else all.
Proof.
  intros Hcb. unfold delivered. rewrite EnumerateRaw_selected. cbv zeta. cbn [snd].
  by rewrite visitForward_recording.
Qed.

Lemma neverStops_keepGoing : neverStops keepGoing.
Proof. done. Qed.

Lemma bytes_of_string_inj (s1 s2 : string) :
  bytes_of_string s1 = bytes_of_string s2 → s1 = s2.
Proof.
  unfold bytes_of_string. intros [= Heq].
  by rewrite <- (string_of_list_byte_of_string s1), Heq, string_of_list_byte_of_string.
Qed.

Lemma Key_selected (prefix seek : bytes) (onlyKeys : bool) (l : list (string * Item)) :
  Key <$> selected prefix seek onlyKeys l =
    bytes_of_string
      <$> (filter (λ kv, candidate (string_of_bytes prefix) (string_of_bytes seek) kv = true) l).*1.
Proof. unfold selected. rewrite <- !list_fmap_compose. done. Qed.

Lemma selected_Permutation (prefix seek : bytes) (onlyKeys : bool)
    (l1 l2 : list (string * Item)) :
  l1 ≡ₚ l2 → selected prefix seek onlyKeys l1 ≡ₚ selected prefix seek onlyKeys l2.
Proof. intros Hp. unfold selected. by rewrite Hp. Qed.

Lemma filter_none {A : Type} (P : A → Prop) `{!∀ x, Decision (P x)} (l : list A) :
  (∀ x, x ∈ l → ¬ P x) → filter P l = [].
Proof.
  induction l as [|x l IH]; intros Hl; [done|].
  rewrite filter_cons_False by (apply Hl; left).
  apply IH. intros y Hy. apply Hl. by right.
Qed.

Lemma candidate_true (prefixStr seekStr : string) (key : string) (it : Item) :
  candidate prefixStr seekStr (key, it) = true ↔
  (∃ b, Object it = ObjBytes b) ∧
  HasPrefix key prefixStr = true ∧ string_ge key seekStr = true.
Proof.
  unfold candidate. cbn [fst snd]. destruct (Object it) as [|b|other].
  - split; [done|]. by intros [[b Hb] _].
  - rewrite andb_true_iff. split; [intros [? ?]; eauto|]. by intros [_ ?].
  - split; [done|]. by intros [[b Hb] _].
Qed.

(** C6.  In reverse mode [EnumerateRaw] hands its visitor, last to first
    and until the visitor stops, the whole sequence that forward mode
    delivers with the same arguments, snapshot and iteration order; so for a
    visitor that does not stop early the sequence delivered in reverse mode
    is the reverse of the one delivered in forward mode. *)
Theorem reverse_delivers_reversed {V : Type} (t : cacheStore) (now : Z)
    (order : rangeOrder) (prefix seek : bytes) (batchSize : Z) (onlyKeys : bool)
    (cb : visitor V) (v : V) :
  EnumerateRaw t now order prefix seek batchSize onlyKeys true cb v
    = (None,
       visitForward cb
         (rev (delivered t now order prefix seek batchSize onlyKeys false keepGoing tt))
         v) ∧
  (neverStops cb →
   delivered t now order prefix seek batchSize onlyKeys true cb v
     = rev (delivered t now order prefix seek batchSize onlyKeys false cb v)).
Proof.
  split.
  - rewrite EnumerateRaw_selected.
    by rewrite (delivered_selected _ _ _ _ _ _ _ false keepGoing tt neverStops_keepGoing).
  - intros Hcb. by rewrite !delivered_selected by done.
Qed.

(** C5, as amended.  [EnumerateRaw] reports no error and ignores
    [batchSize].  To a visitor that does not stop early it delivers, each
    once and in either mode, the entries of exactly those keys of the
    snapshot that hold a byte slice, start with [prefix] and are not below
    [seek]; keys holding a value of another type are passed over.  When no
    key qualifies nothing is delivered. *)
Theorem enumerate_delivers_matching {V : Type} (t : cacheStore) (now : Z)
    (order : rangeOrder) (prefix seek : bytes) (batchSize : Z)
    (onlyKeys reverse : bool) (cb : visitor V) (v : V) :
  (EnumerateRaw t now order prefix seek batchSize onlyKeys reverse cb v).1 = None ∧
  (∀ batchSize',
     EnumerateRaw t now order prefix seek batchSize' onlyKeys reverse cb v
     = EnumerateRaw t now order prefix seek batchSize onlyKeys reverse cb v) ∧
  (fair order → neverStops cb →
   let out := delivered t now order prefix seek batchSize onlyKeys reverse cb v in
   out ≡ₚ selected prefix seek onlyKeys (map_to_list (Items (cache t) now)) ∧
   NoDup (Key <$> out) ∧
   (∀ key : string,
      bytes_of_string key ∈ Key <$> out ↔
      ∃ it, Items (cache t) now !! key = Some it ∧
            (∃ b, Object it = ObjBytes b) ∧
            HasPrefix key (string_of_bytes prefix) = true ∧
            string_ge key (string_of_bytes seek) = true) ∧
   ((∀ key it, Items (cache t) now !! key = Some it →
               candidate (string_of_bytes prefix) (string_of_bytes seek) (key, it) = false) →
    out = [])).
Proof.
  split; [by rewrite EnumerateRaw_selected|]. split; [done|].
  intros Hfair Hcb. cbv zeta.
  set (m := Items (cache t) now).
  assert (delivered t now order prefix seek batchSize onlyKeys reverse cb v
          ≡ₚ selected prefix seek onlyKeys (map_to_list m)) as Hperm.
  { rewrite delivered_selected by done. cbv zeta. fold m.
    rewrite <- (selected_Permutation _ _ _ _ _ (Hfair m)).
    destruct reverse; [symmetry; apply Permutation_rev|done]. }
  split; [done|]. split; [|split].
  - rewrite Hperm, Key_selected.
    apply (NoDup_fmap_2_strong bytes_of_string).
    + intros ? ? _ _. apply bytes_of_string_inj.
    + eapply sublist_NoDup; [apply (NoDup_fst_map_to_list m)|].
      apply fmap_sublist, sublist_filter.
  - intros key. rewrite Hperm, Key_selected. rewrite list_elem_of_fmap. split.
    + intros (key' & Hkey%bytes_of_string_inj & Hin). subst key'.
      apply list_elem_of_fmap in Hin as ([key' it] & -> & Hin). cbn [fst].
      apply list_elem_of_filter in Hin as [Hsel Hin].
      apply elem_of_map_to_list in Hin. apply candidate_true in Hsel. eauto.
    + intros (it & Hit & Hsel). exists key. split; [done|].
      apply list_elem_of_fmap. exists (key, it). split; [done|].
      apply list_elem_of_filter. split; [by apply candidate_true|].
      by apply elem_of_map_to_list.
  - intros Hnone. apply Permutation_nil_r. rewrite Hperm. unfold selected.
    rewrite filter_none; [done|].
    intros [key it] Hin%elem_of_map_to_list. by rewrite (Hnone key it Hin).
Qed.

Lemma fair_map_to_list : fair map_to_list.
Proof. intros m. unfold ranges. done. Qed.

Lemma enumerate_delivers_matching_witness :
  let t := (SetRaw (SetRaw (SetRaw (NewDefault "s") 5 (bytes_of_string "a1")
                              (bytes_of_string "x") 0).2
                      6 (bytes_of_string "a2") (bytes_of_string "y") 0).2
              7 (bytes_of_string "b1") (bytes_of_string "z") 0).2 in
  let out := delivered t 9 map_to_list (bytes_of_string "a") None 2 false false
               keepGoing tt in
  out ≡ₚ selected (bytes_of_string "a") None false (map_to_list (Items (cache t) 9)) ∧
  NoDup (Key <$> out) ∧
  (∀ key : string,
     bytes_of_string key ∈ Key <$> out ↔
     ∃ it, Items (cache t) 9 !! key = Some it ∧
           (∃ b, Object it = ObjBytes b) ∧
           HasPrefix key "a" = true ∧ string_ge key "" = true) ∧
  ((∀ key it, Items (cache t) 9 !! key = Some it →
              candidate "a" "" (key, it) = false) →
   out = []).
Proof.
  intros t out.
  apply (enumerate_delivers_matching t 9 map_to_list (bytes_of_string "a") None 2
           false false keepGoing tt).
  - intros m. unfold ranges. reflexivity.
  - intros entry u. reflexivity.
Defined.

(** C5, as stated, fails on a snapshot with a key whose value is not a byte
    slice: the key starts with the prefix and is not below the seek key,
    and nothing is delivered. *)
Lemma enumerate_other_type_counterexample :
  let c := Set_ (Engine.New NoExpiration Hour) 5 "a1" (ObjOther "int") NoExpiration in
  let t := FromCache "s" c in
  Items (cache t) 9 !! "a1"%string = Some (mkItem (ObjOther "int") 0) ∧
  HasPrefix "a1" (string_of_bytes (bytes_of_string "a")) = true ∧
  string_ge "a1" (string_of_bytes None) = true ∧
  delivered t 9 map_to_list (bytes_of_string "a") None 0 false false keepGoing tt = [] ∧
  delivered t 9 map_to_list (bytes_of_string "a") None 0 false true keepGoing tt = [].
Proof. cbv zeta. repeat split; vm_compute; reflexivity. Qed.

Lemma reverse_delivers_reversed_witness :
  let t := (SetRaw (SetRaw (NewDefault "s") 5 (bytes_of_string "a1")
                      (bytes_of_string "x") 0).2
              6 (bytes_of_string "a2") (bytes_of_string "y") 3).2 in
  delivered t 9 map_to_list (bytes_of_string "a") None 0 false true keepGoing tt
    = rev (delivered t 9 map_to_list (bytes_of_string "a") None 0 false false keepGoing tt).
Proof.
  intros t.
  apply (reverse_delivers_reversed t 9 map_to_list (bytes_of_string "a") None 0 false
           keepGoing tt).
  intros entry u. reflexivity.
Defined.

(** ** Dropping a prefix *)

Lemma elem_of_order_keys (order : rangeOrder) (m : gmap string Item) (k : string) :
  fair order → k ∈ (order m).*1 ↔ is_Some (m !! k).
Proof.
  intros Hfair. rewrite (Hfair m). rewrite list_elem_of_fmap. split.
  - intros ([k' it] & -> & Hin%elem_of_map_to_list). eauto.
  - intros [it Hit]. exists (k, it). split; [done|]. by apply elem_of_map_to_list.
Qed.

Lemma drop_loop_lookup (prefixStr : string) (l : list (string * Item)) (c : Cache)
    (k : string) :
  items (fold_left
           (λ c kv, if HasPrefix kv.1 prefixStr then Delete c kv.1 else c) l c) !! k
  = if decide (HasPrefix k prefixStr = true ∧ k ∈ l.*1) then None else items c !! k.
Proof.
  revert c. induction l as [|[key it] rest IH]; intros c.
  - cbn. rewrite decide_False; [done|]. intros [_ Hin]. by apply not_elem_of_nil in Hin.
  - cbn [fold_left fst]. rewrite IH. cbn [fmap list_fmap fst].
    destruct (decide (HasPrefix k prefixStr = true ∧ k ∈ rest.*1)) as [[Hp Hin]|Hno].
    + rewrite decide_True; [done|]. split; [done|]. by right.
    + destruct (HasPrefix key prefixStr) eqn:Hkey.
      * cbn [Delete items]. destruct (decide (key = k)) as [->|Hne].
        -- rewrite lookup_delete_eq, decide_True; [done|]. split; [done|]. by left.
        -- rewrite lookup_delete_ne by done. rewrite decide_False; [done|].
           intros [Hp [?|Hin]%elem_of_cons]; [done|]. by apply Hno.
      * rewrite decide_False; [done|].
        intros [Hp [->|Hin]%elem_of_cons]; [congruence|]. by apply Hno.
Qed.

Lemma not_in_Items (c : Cache) (now : Z) (k : string) (it : Item) :
  Items c now !! k = None → items c !! k = Some it → expired it now = true.
Proof.
  intros Hnone Hk. destruct (expired it now) eqn:He; [done|].
  assert (Items c now !! k = Some it) as Hsome by by apply lookup_Items.
  congruence.
Qed.

Lemma DropWithPrefix_lookup (t : cacheStore) (now : Z) (order : rangeOrder)
    (prefix : bytes) (k : string) :
  fair order →
  items (cache (DropWithPrefix t now order prefix).2) !! k
  = if decide (HasPrefix k (string_of_bytes prefix) = true
               ∧ is_Some (Items (cache t) now !! k))
    then None else items (cache t) !! k.
Proof.
  intros Hfair. unfold DropWithPrefix. cbn [snd with_cache cache].
  rewrite drop_loop_lookup.
  destruct (decide (HasPrefix k (string_of_bytes prefix) = true
                    ∧ k ∈ (order (Items (cache t) now)).*1)) as [[Hp Hin]|Hno].
  - rewrite decide_True; [done|]. split; [done|]. by apply (elem_of_order_keys order).
  - rewrite decide_False; [done|]. intros [Hp Hin]. apply Hno. split; [done|].
    by apply (elem_of_order_keys order).
Qed.

Lemma Get_after_DropWithPrefix (t : cacheStore) (now later : Z) (order : rangeOrder)
    (prefix : bytes) (k : string) :
  fair order → (now ≤ later)%Z →
  HasPrefix k (string_of_bytes prefix) = true →
  Get (cache (DropWithPrefix t now order prefix).2) later k = (ObjNil, false).
Proof.
  intros Hfair Hle Hp. unfold Get. rewrite DropWithPrefix_lookup by done.
  destruct (decide _) as [|Hno]; [done|].
  destruct (items (cache t) !! k) as [it|] eqn:Hk; [|done].
  assert (Items (cache t) now !! k = None) as Hnone.
  { destruct (Items (cache t) now !! k) eqn:HI; [|done].
    exfalso. apply Hno. split; [done|]. eauto. }
  by rewrite (expired_mono it now later Hle (not_in_Items _ _ _ _ Hnone Hk)).
Qed.

(** C9.  [DropWithPrefix] reports no error and takes out of the key space
    the keys that start with [prefix], and only those: the snapshot after
    the call is the snapshot before it without these keys, a key that does
    not start with [prefix] keeps its item, and a key that starts with
    [prefix] is not found by any later read.  A later enumeration with the
    same prefix, in either mode and for any seek key and visitor, delivers
    nothing and leaves the visitor's state as it was. *)
Theorem drop_with_prefix (t : cacheStore) (now : Z) (order : rangeOrder)
    (prefix : bytes) :
  fair order →
  (DropWithPrefix t now order prefix).1 = None ∧
  Items (cache (DropWithPrefix t now order prefix).2) now
    = filter (λ kv, HasPrefix kv.1 (string_of_bytes prefix) = false)
        (Items (cache t) now) ∧
  (∀ k, HasPrefix k (string_of_bytes prefix) = false →
        items (cache (DropWithPrefix t now order prefix).2) !! k
        = items (cache t) !! k) ∧
  (∀ k later, HasPrefix k (string_of_bytes prefix) = true → (now ≤ later)%Z →
              Get (cache (DropWithPrefix t now order prefix).2) later k
              = (ObjNil, false)) ∧
  (∀ (V : Type) later order' seek batchSize onlyKeys reverse (cb : visitor V) v,
     (now ≤ later)%Z → fair order' →
     EnumerateRaw (DropWithPrefix t now order prefix).2 later order' prefix seek
       batchSize onlyKeys reverse cb v = (None, v) ∧
     delivered (DropWithPrefix t now order prefix).2 later order' prefix seek
       batchSize onlyKeys reverse cb v = []).
Proof.
  intros Hfair. split; [done|]. split; [|split; [|split]].
  - apply map_eq. intros k. apply option_eq. intros it.
    rewrite lookup_Items, map_lookup_filter_Some, lookup_Items.
    rewrite DropWithPrefix_lookup by done. cbn [fst].
    destruct (decide _) as [[Hp [it' Hit']]|Hno].
    + split; [by intros [? _]|]. intros [_ ?]. congruence.
    + split.
      * intros [Hk He]. split; [done|].
        destruct (HasPrefix k (string_of_bytes prefix)) eqn:Hp; [|done].
        exfalso. apply Hno. split; [done|]. exists it. by apply lookup_Items.
      * by intros [? _].
  - intros k Hp. rewrite DropWithPrefix_lookup by done.
    rewrite decide_False; [done|]. intros [? _]. congruence.
  - intros k later Hp Hle. by apply Get_after_DropWithPrefix.
  - intros V later order' seek batchSize onlyKeys reverse cb v Hle Hfair'.
    assert (selected prefix seek onlyKeys
              (order' (Items (cache (DropWithPrefix t now order prefix).2) later))
            = []) as Hnone.
    { unfold selected. rewrite filter_none; [done|].
      intros [k it] Hin Hsel. apply candidate_true in Hsel as (_ & Hp & _).
      assert (k ∈ (order' (Items (cache (DropWithPrefix t now order prefix).2) later)).*1)
        as Hk by (apply list_elem_of_fmap; by exists (k, it)).
      apply (elem_of_order_keys order') in Hk as [it' Hit']; [|done].
      assert (Get (cache (DropWithPrefix t now order prefix).2) later k
              = (Object it', true)) as Hfound by (apply Get_found; eauto).
      rewrite Get_after_DropWithPrefix in Hfound by done. done. }
    unfold delivered. rewrite !EnumerateRaw_selected. cbv zeta. rewrite Hnone.
    by destruct reverse.
Qed.

Lemma drop_with_prefix_witness :
  let t := (SetRaw (SetRaw (NewDefault "s") 5 (bytes_of_string "x1")
                      (bytes_of_string "u") 0).2
              6 (bytes_of_string "y1") (bytes_of_string "w") 0).2 in
  let t' := (DropWithPrefix t 9 map_to_list (bytes_of_string "x")).2 in
  Items (cache t') 9
    = filter (λ kv, HasPrefix kv.1 "x" = false) (Items (cache t) 9) ∧
  items (cache t') !! "y1"%string = items (cache t) !! "y1"%string ∧
  Get (cache t') 10 "x1" = (ObjNil, false) ∧
  delivered t' 10 map_to_list (bytes_of_string "x") None 0 false false keepGoing tt = [].
Proof.
  intros t t'.
  destruct (drop_with_prefix t 9 map_to_list (bytes_of_string "x"))
    as (_ & Hsnap & Hframe & Hgone & Henum).
  - intros m. unfold ranges. reflexivity.
  - split; [exact Hsnap|]. split; [apply Hframe; reflexivity|].
    split; [apply Hgone; [reflexivity|lia]|].
    apply (Henum unit 10%Z map_to_list None 0%Z false false keepGoing tt); [lia|].
    intros m. unfold ranges. reflexivity.
Defined.

(** ** Keys that were never set *)

Lemma get_absent_key (t : cacheStore) (now : Z) (k : bytes) :
  items (cache t) !! string_of_bytes k = None →
  GetRaw t now k true = (None, Some ErrNotExist) ∧
  GetRaw t now k false = (None, None).
Proof.
  intros Hk. unfold GetRaw.
  by rewrite !(getImpl_absent t now k _ (Get_absent _ _ _ Hk)).
Qed.

Lemma unset_bytesOf (t : cacheStore) (now : Z) (k : string) :
  unset t k → bytesOf (Get (cache t) now k) = None.
Proof.
  intros Hun. unfold Get. destruct (items (cache t) !! k) as [it|] eqn:Hk; [|done].
  destruct (expired it now); [done|]. by rewrite (Hun it Hk).
Qed.

Lemma unset_new (name : string) (options : list Option) (k : string) :
  unset (New name options) k.
Proof. intros it. unfold New, OpenDatabase, Engine.New. cbn. by rewrite lookup_empty. Qed.

Lemma unset_Set_other (t : cacheStore) (now : Z) (k k' : string) (x : Interface) (d : Z) :
  k' ≠ k → unset t k → unset (with_cache t (Set_ (cache t) now k' x d)) k.
Proof. intros Hne Hun it. cbn. rewrite lookup_insert_ne by done. apply Hun. Qed.

Lemma unset_perform (t : cacheStore) (k : string) (o : operation) :
  ¬ sets k o → unset t k → unset (perform t o) k.
Proof.
  intros Hsets Hun.
  destruct o as [now key value ttl|now key value ttl version
                |g s key initial delta ttl|A g s key cb env|g s key ttl
                |key|now| |now order prefix]; cbn [perform sets] in *.
  - by apply unset_Set_other.
  - by apply unset_Set_other.
  - rewrite IncrementRaw_step. by apply unset_Set_other.
  - rewrite UpdateRaw_unfold. cbv zeta.
    destruct (cb (currentEntry t g key) env).2; [|done]. by apply unset_Set_other.
  - unfold TouchRaw. cbn [snd]. intros it. cbn.
    destruct (decide (string_of_bytes key = k)) as [->|Hne].
    + rewrite lookup_insert_eq. intros [= <-]. cbn. by rewrite unset_bytesOf.
    + rewrite lookup_insert_ne by done. apply Hun.
  - intros it. cbn. destruct (decide (string_of_bytes key = k)) as [->|Hne].
    + by rewrite lookup_delete_eq.
    + rewrite lookup_delete_ne by done. apply Hun.
  - intros it. cbn. intros [Hit _]%lookup_Items. by apply Hun.
  - intros it. cbn. by rewrite lookup_empty.
  - intros it. unfold DropWithPrefix. cbn [snd with_cache cache].
    rewrite drop_loop_lookup. destruct (decide _); [done|]. apply Hun.
Qed.

Lemma unset_after (t : cacheStore) (k : string) (history : list operation) :
  neverSet k history → unset t k → unset (after t history) k.
Proof.
  unfold after. revert t. induction history as [|o rest IH]; intros t Hnever Hun; [done|].
  apply Forall_cons in Hnever as [Ho Hrest]. cbn [fold_left].
  apply IH; [done|]. by apply unset_perform.
Qed.

(** C7.  In a store that was created empty and went through any history of
    calls none of which gave the key [k] a value, a required read of [k]
    fails with [ErrNotExist] and a read that is not required returns the nil
    slice and no error, at every clock reading. *)
Theorem get_never_set (name : string) (options : list Option)
    (history : list operation) (now : Z) (k : bytes) :
  neverSet (string_of_bytes k) history →
  GetRaw (after (New name options) history) now k true = (None, Some ErrNotExist) ∧
  GetRaw (after (New name options) history) now k false = (None, None).
Proof.
  intros Hnever. unfold GetRaw, getImpl.
  by rewrite (unset_bytesOf _ now _
                (unset_after _ _ _ Hnever (unset_new name options _))).
Qed.

Lemma get_never_set_witness :
  let history :=
    [DoSet 5 (bytes_of_string "a") (bytes_of_string "x") 0;
     DoTouch 6 7 (bytes_of_string "k") 10;
     DoIncrement 8 9 (bytes_of_string "n") 0 1 0;
     DoRemove (bytes_of_string "a")] in
  GetRaw (after (NewDefault "s") history) 42 (bytes_of_string "k") true
    = (None, Some ErrNotExist) ∧
  GetRaw (after (NewDefault "s") history) 42 (bytes_of_string "k") false
    = (None, None).
Proof.
  intros history.
  apply (get_never_set "s" [] history 42 (bytes_of_string "k")).
  unfold history. repeat constructor; cbn; intros H; discriminate H || exact H.
Defined.

(** ** The library functions of the model *)

Lemma HasPrefix_app (s prefix : string) :
  HasPrefix s prefix = true ↔ ∃ rest, s = String.append prefix rest.
Proof.
  unfold HasPrefix. revert s. induction prefix as [|a prefix IH]; intros s.
  - split; [intros _; by exists s|]. intros _. by destruct s.
  - destruct s as [|b s].
    + split; [done|]. intros [rest Hrest]. discriminate Hrest.
    + change (String.prefix (String a prefix) (String b s))
        with (if Ascii.ascii_dec a b then String.prefix prefix s else false).
      change (String.append (String a prefix))
        with (λ rest, String a (String.append prefix rest)).
      destruct (Ascii.ascii_dec a b) as [->|Hne].
      * rewrite IH. split; intros [rest Hrest]; exists rest; congruence.
      * split; [done|]. intros [rest Hrest]. congruence.
Qed.

Example string_ge_examples :
  string_ge "a1" "" = true ∧ string_ge "a1" "a1" = true ∧
  string_ge "a2" "a1" = true ∧ string_ge "b" "a1" = true ∧
  string_ge "a" "a1" = false ∧ string_ge "a1" "a2" = false.
Proof. repeat split. Qed.

(** The passive sweep changes nothing a later read or snapshot can see. *)
Lemma Get_after_sweep (c : Cache) (swept later : Z) (k : string) :
  (swept ≤ later)%Z → Get (DeleteExpired c swept) later k = Get c later k.
Proof.
  intros Hle. unfold Get, DeleteExpired. cbn [items].
  destruct (items c !! k) as [it|] eqn:Hk.
  - destruct (expired it swept) eqn:He.
    + rewrite (expired_mono it swept later Hle He).
      destruct (Items c swept !! k) as [it'|] eqn:HI; [|done].
      apply lookup_Items in HI as [HI He']. congruence.
    + by rewrite (proj2 (lookup_Items c swept k it) (conj Hk He)).
  - destruct (Items c swept !! k) as [it'|] eqn:HI; [|done].
    apply lookup_Items in HI as [HI _]. congruence.
Qed.

Lemma getImpl_after_Compact (t : cacheStore) (swept later : Z) (key : bytes)
    (required : bool) :
  (swept ≤ later)%Z →
  getImpl (Compact t swept).2 later key required = getImpl t later key required.
Proof. intros Hle. unfold getImpl, Compact. cbn. by rewrite Get_after_sweep. Qed.

(** * Further properties of the adapter *)

Lemma with_cache_same (t : cacheStore) : with_cache t (cache t) = t.
Proof. by destruct t. Qed.

Lemma Cache_eta (c : Cache) (m : gmap string Item) :
  m = items c → {| defaultExpiration := defaultExpiration c; items := m |} = c.
Proof. intros ->. by destruct c. Qed.

(** ** Remove *)

(** X1.  [RemoveRaw] never fails.  After it the key is absent for every
    read at every clock reading, whatever it held, and every other key keeps
    its item; removing a key the engine does not hold returns the store as it
    was. *)
Theorem remove_raw (t : cacheStore) (key : bytes) :
  (RemoveRaw t key).1 = None ∧
  (∀ later required,
     getImpl (RemoveRaw t key).2 later key required = absent required) ∧
  (∀ k', k' ≠ string_of_bytes key →
         items (cache (RemoveRaw t key).2) !! k' = items (cache t) !! k') ∧
  (items (cache t) !! string_of_bytes key = None → (RemoveRaw t key).2 = t).
Proof.
  split; [done|]. split; [|split].
  - intros later required. apply getImpl_absent, Get_absent. cbn.
    apply lookup_delete_eq.
  - intros k' Hne. cbn. by rewrite lookup_delete_ne.
  - intros Hk. unfold RemoveRaw, Delete. cbn [snd].
    rewrite (Cache_eta (cache t)) by (by rewrite delete_id).
    apply with_cache_same.
Qed.

(** ** Set *)

(** X2.  [SetRaw] overwrites: two writes of one key leave the store that the
    second write alone leaves, whatever the first one stored and whatever
    its TTL, and a write leaves the item of every other key as it was. *)
Theorem set_overwrites (t : cacheStore) (now1 now2 : Z) (key v1 v2 : bytes)
    (ttl1 ttl2 : Z) :
  (SetRaw (SetRaw t now1 key v1 ttl1).2 now2 key v2 ttl2).2
    = (SetRaw t now2 key v2 ttl2).2 ∧
  (∀ k', k' ≠ string_of_bytes key →
         items (cache (SetRaw t now1 key v1 ttl1).2) !! k' = items (cache t) !! k').
Proof.
  split.
  - unfold SetRaw, with_cache, Set_. cbn. by rewrite insert_insert_eq.
  - intros k' Hne. cbn. by rewrite lookup_insert_ne.
Qed.

(** ** Reads *)

(** X3.  A key whose object in the engine is not a byte slice (the nil
    interface or a value of another type, as an adopted engine can hold)
    reads as an absent key: [ErrNotExist] when required, nil and no error
    otherwise. *)
Theorem get_other_type (t : cacheStore) (now : Z) (key : bytes) (x : Interface)
    (found : bool) (required : bool) :
  Get (cache t) now (string_of_bytes key) = (x, found) →
  (∀ b, x ≠ ObjBytes b) →
  getImpl t now key required = absent required.
Proof.
  intros HG Hx. unfold getImpl. rewrite HG.
  destruct x as [|b|other]; [| by destruct (Hx b) |]; by destruct found, required.
Qed.

Lemma get_other_type_witness :
  let t := FromCache "s"
             (Set_ (Engine.New NoExpiration Hour) 5 "n" (ObjOther "int") NoExpiration) in
  getImpl t 9 (bytes_of_string "n") true = absent true.
Proof.
  intros t.
  apply (get_other_type t 9 (bytes_of_string "n") (ObjOther "int") true true).
  - vm_compute. reflexivity.
  - intros b. discriminate.
Defined.

(** ** Touch *)

Lemma Get_after_TouchRaw (t : cacheStore) (now_get now_set later : Z) (key : bytes)
    (ttl : Z) :
  Get (cache (TouchRaw t now_get now_set key ttl).2) later (string_of_bytes key) =
    let b := bytesOf (Get (cache t) now_get (string_of_bytes key)) in
    if expired (mkItem (ObjBytes b)
                  (expirationFor (defaultExpiration (cache t)) now_set (ttlDuration ttl)))
         later
    then (ObjNil, false) else (ObjBytes b, true).
Proof. unfold TouchRaw. cbn. apply Get_Set_eq. Qed.

(** X4.  [TouchRaw] never fails and rewrites the value it reads under a new
    expiration.  For a key that reads as the byte slice [b] when the call
    looks it up: with [ttlSeconds <= 0] every later read returns [b] as a
    read of a stored [b] does, for good; with a TTL whose expiry instant
    fits 64 bits, reads up to [now_set + ttlSeconds * Second] do, and reads
    after it find the key absent.  Every other key keeps its item. *)
Theorem touch_refreshes (t : cacheStore) (now_get now_set : Z) (key b : bytes)
    (ttlSeconds : Z) (required : bool) :
  Get (cache t) now_get (string_of_bytes key) = (ObjBytes b, true) →
  (0 < ttlSeconds → 0 ≤ now_set ∧ now_set + ttlSeconds * Second ≤ Int64.max_signed)%Z →
  let t' := (TouchRaw t now_get now_set key ttlSeconds).2 in
  (TouchRaw t now_get now_set key ttlSeconds).1 = None ∧
  (∀ later,
     (ttlSeconds ≤ 0 ∨ later ≤ now_set + ttlSeconds * Second)%Z →
     getImpl t' later key required =
       match b, required with
       | None, true => (None, Some ErrNotExist)
       | _, _ => (b, None)
       end) ∧
  (∀ later,
     (0 < ttlSeconds ∧ now_set + ttlSeconds * Second < later)%Z →
     getImpl t' later key required = absent required) ∧
  (∀ k', k' ≠ string_of_bytes key → items (cache t') !! k' = items (cache t) !! k').
Proof.
  intros HG Hrep. cbv zeta. split; [done|]. split; [|split].
  - intros later Hlive. apply getImpl_bytes.
    rewrite Get_after_TouchRaw, HG. cbv zeta. cbn [bytesOf].
    destruct (Z_le_gt_dec ttlSeconds 0) as [Hle|Hgt].
    + by rewrite ttlDuration_no_ttl by done.
    + destruct Hrep as [Hnow Hmax]; [lia|]. destruct Hlive as [?|Hlater]; [lia|].
      rewrite ttlDuration_representable by lia.
      rewrite expirationFor_representable by (unfold Second in *; lia).
      unfold expired; cbn.
      replace (now_set + ttlSeconds * Second <? later)%Z with false
        by (symmetry; apply Z.ltb_ge; lia).
      by rewrite andb_false_r.
  - intros later [Hpos Hlater]. destruct Hrep as [Hnow Hmax]; [done|].
    apply getImpl_absent. rewrite Get_after_TouchRaw. cbv zeta.
    rewrite ttlDuration_representable by lia.
    rewrite expirationFor_representable by (unfold Second in *; lia).
    unfold expired; cbn.
    replace (0 <? now_set + ttlSeconds * Second)%Z with true
      by (symmetry; apply Z.ltb_lt; unfold Second; lia).
    by replace (now_set + ttlSeconds * Second <? later)%Z with true
      by (symmetry; apply Z.ltb_lt; lia).
  - intros k' Hne. cbn. by rewrite lookup_insert_ne.
Qed.

Lemma touch_refreshes_witness :
  let k := bytes_of_string "k" in
  let v := bytes_of_string "v" in
  let t := (SetRaw (NewDefault "s") 100 k v 1).2 in
  let t' := (TouchRaw t 200 300 k 0).2 in
  getImpl t 2000000000 k true = (None, Some ErrNotExist) ∧
  getImpl t' 2000000000 k true = (v, None).
Proof.
  intros k v t t'. split; [vm_compute; reflexivity|].
  destruct (touch_refreshes t 200 300 k v 0 true) as (_ & Hlive & _).
  - vm_compute. reflexivity.
  - lia.
  - apply (Hlive 2000000000%Z). left. lia.
Defined.

(** X5.  When the key does not read as a byte slice at the time of the call
    (no item, an expired item, or an object of another type), [TouchRaw]
    still writes: the engine then holds the key with the nil slice, in place
    of whatever was there, and until that item expires a required read fails
    with [ErrNotExist] while the key is in the snapshot. *)
Theorem touch_without_value (t : cacheStore) (now_get now_set : Z) (key : bytes)
    (ttlSeconds : Z) :
  bytesOf (Get (cache t) now_get (string_of_bytes key)) = None →
  let t' := (TouchRaw t now_get now_set key ttlSeconds).2 in
  (∃ e, items (cache t') !! string_of_bytes key = Some (mkItem (ObjBytes None) e)) ∧
  (∀ later, getImpl t' later key true = (None, Some ErrNotExist)) ∧
  (∀ later, getImpl t' later key false = (None, None)) ∧
  (ttlSeconds ≤ 0 →
   ∀ later, Items (cache t') later !! string_of_bytes key = Some (mkItem (ObjBytes None) 0))%Z.
Proof.
  intros Hnone. cbv zeta. split; [|split; [|split]].
  - eexists. unfold TouchRaw. cbn. rewrite Hnone. apply lookup_insert_eq.
  - intros later. unfold getImpl. rewrite Get_after_TouchRaw, Hnone. cbv zeta.
    by destruct (expired _ later).
  - intros later. unfold getImpl. rewrite Get_after_TouchRaw, Hnone. cbv zeta.
    by destruct (expired _ later).
  - intros Hle later. apply lookup_Items. unfold TouchRaw. cbn.
    rewrite Hnone, lookup_insert_eq, ttlDuration_no_ttl by done. done.
Qed.

Lemma touch_without_value_witness :
  let k := bytes_of_string "n" in
  let t := FromCache "s"
             (Set_ (Engine.New NoExpiration Hour) 5 "n" (ObjOther "int") NoExpiration) in
  let t' := (TouchRaw t 6 7 k 0).2 in
  (∃ e, items (cache t') !! string_of_bytes k = Some (mkItem (ObjBytes None) e)) ∧
  (∀ later, getImpl t' later k true = (None, Some ErrNotExist)) ∧
  (∀ later, getImpl t' later k false = (None, None)) ∧
  (0 ≤ 0 →
   ∀ later, Items (cache t') later !! string_of_bytes k = Some (mkItem (ObjBytes None) 0))%Z.
Proof.
  intros k t t'. apply (touch_without_value t 6 7 k 0). vm_compute. reflexivity.
Defined.

(** ** Bulk operations *)

Lemma Cache_eq (c1 c2 : Cache) :
  defaultExpiration c1 = defaultExpiration c2 → items c1 = items c2 → c1 = c2.
Proof. destruct c1, c2. cbn. by intros -> ->. Qed.

Lemma order_empty (order : rangeOrder) : fair order → order ∅ = [].
Proof.
  intros Hfair. apply Permutation_nil_r. rewrite (Hfair ∅).
  by rewrite map_to_list_empty.
Qed.

Lemma Items_after_sweep (c : Cache) (swept later : Z) :
  (swept ≤ later)%Z → Items (DeleteExpired c swept) later = Items c later.
Proof.
  intros Hle. apply map_eq. intros k. apply option_eq. intros it.
  rewrite !lookup_Items. unfold DeleteExpired. cbn [items]. rewrite lookup_Items.
  split; [by intros [[? _] ?]|]. intros [Hk He]. split; [|done]. split; [done|].
  destruct (expired it swept) eqn:Hs; [|done].
  by rewrite (expired_mono it swept later Hle Hs) in He.
Qed.

Lemma drop_loop_default (prefixStr : string) (l : list (string * Item)) (c : Cache) :
  defaultExpiration
    (fold_left (λ c kv, if HasPrefix kv.1 prefixStr then Delete c kv.1 else c) l c)
  = defaultExpiration c.
Proof.
  revert c. induction l as [|kv rest IH]; intros c; [done|].
  cbn [fold_left]. rewrite IH. by destruct (HasPrefix kv.1 prefixStr).
Qed.

Lemma HasPrefix_empty (s : string) : HasPrefix s "" = true.
Proof. unfold HasPrefix. by destruct s. Qed.

Lemma string_ge_empty (s : string) : string_ge s "" = true.
Proof. unfold string_ge. by destruct s. Qed.

(** X6.  [DropAll] never fails and leaves no key: every read of every key is
    a read of an absent key, the snapshot is empty, and an enumeration, in
    either mode and with any prefix, seek key and visitor, hands the visitor
    nothing. *)
Theorem drop_all_empties (t : cacheStore) :
  (DropAll t).1 = None ∧
  (∀ later key required, getImpl (DropAll t).2 later key required = absent required) ∧
  (∀ later, Items (cache (DropAll t).2) later = ∅) ∧
  (∀ (V : Type) later order prefix seek batchSize onlyKeys reverse (cb : visitor V) v,
     fair order →
     EnumerateRaw (DropAll t).2 later order prefix seek batchSize onlyKeys reverse cb v
       = (None, v) ∧
     delivered (DropAll t).2 later order prefix seek batchSize onlyKeys reverse cb v = []).
Proof.
  assert (∀ later, Items (cache (DropAll t).2) later = ∅) as Hitems
    by (intros later; unfold Items; cbn; apply map_filter_empty).
  split; [done|]. split; [|split; [done|]].
  - intros later key required. apply getImpl_absent, Get_absent. cbn. apply lookup_empty.
  - intros V later order prefix seek batchSize onlyKeys reverse cb v Hfair.
    unfold delivered. rewrite !EnumerateRaw_selected. cbv zeta.
    rewrite Hitems, (order_empty order Hfair). by destruct reverse.
Qed.

(** X7.  [Compact] never fails and is invisible to later calls: the items it
    leaves are the items that had not expired at its clock reading, each
    unchanged, and a read or a snapshot at that reading or later is what it
    would have been without the sweep.  Sweeping again at the same reading
    changes nothing. *)
Theorem compact_is_invisible (t : cacheStore) (now : Z) :
  (Compact t now).1 = None ∧
  (∀ k it, items (cache (Compact t now).2) !! k = Some it ↔
           items (cache t) !! k = Some it ∧ expired it now = false) ∧
  (∀ later key required,
     (now ≤ later)%Z →
     getImpl (Compact t now).2 later key required = getImpl t later key required) ∧
  (∀ later,
     (now ≤ later)%Z →
     Items (cache (Compact t now).2) later = Items (cache t) later) ∧
  (Compact (Compact t now).2 now).2 = (Compact t now).2.
Proof.
  split; [done|]. split; [|split; [|split]].
  - intros k it. cbn. apply lookup_Items.
  - intros later key required Hle. by apply getImpl_after_Compact.
  - intros later Hle. cbn. by apply Items_after_sweep.
  - unfold Compact, with_cache. cbn. f_equal. apply Cache_eq; [done|]. cbn.
    by apply (Items_after_sweep (cache t) now now).
Qed.

(** X8.  What [DropWithPrefix] leaves does not depend on the order in which
    the loop meets the keys: any two iteration orders over the snapshot give
    the same store. *)
Theorem drop_with_prefix_any_order (t : cacheStore) (now : Z)
    (order1 order2 : rangeOrder) (prefix : bytes) :
  fair order1 → fair order2 →
  DropWithPrefix t now order1 prefix = DropWithPrefix t now order2 prefix.
Proof.
  intros H1 H2.
  assert (cache (DropWithPrefix t now order1 prefix).2
          = cache (DropWithPrefix t now order2 prefix).2) as Hc.
  { apply Cache_eq.
    - cbn. by rewrite !drop_loop_default.
    - apply map_eq. intros k. by rewrite !DropWithPrefix_lookup. }
  unfold DropWithPrefix in *. cbn [snd with_cache cache] in Hc. by rewrite Hc.
Qed.

Lemma drop_with_prefix_any_order_witness :
  let t := (SetRaw (SetRaw (NewDefault "s") 5 (bytes_of_string "x1")
                      (bytes_of_string "u") 0).2
              6 (bytes_of_string "x2") (bytes_of_string "w") 0).2 in
  DropWithPrefix t 9 map_to_list (bytes_of_string "x")
  = DropWithPrefix t 9 (λ m, rev (map_to_list m)) (bytes_of_string "x").
Proof.
  intros t. apply (drop_with_prefix_any_order t 9).
  - intros m. unfold ranges. reflexivity.
  - intros m. unfold ranges. symmetry. apply Permutation_rev.
Defined.

(** X9.  With the nil or the empty prefix [DropWithPrefix] takes every key
    out of the key space: the snapshot right after the call is empty and no
    later read finds any key. *)
Theorem drop_with_empty_prefix (t : cacheStore) (now : Z) (order : rangeOrder)
    (prefix : bytes) :
  fair order → len prefix = 0%Z →
  Items (cache (DropWithPrefix t now order prefix).2) now = ∅ ∧
  (∀ later key required,
     (now ≤ later)%Z →
     getImpl (DropWithPrefix t now order prefix).2 later key required = absent required).
Proof.
  intros Hfair Hlen.
  assert (string_of_bytes prefix = ""%string) as Hp.
  { destruct prefix as [[|b l]|]; [done| |done]. cbn in Hlen. lia. }
  split.
  - apply map_empty. intros k.
    destruct (Items (cache (DropWithPrefix t now order prefix).2) now !! k)
      as [it|] eqn:Hk; [|done].
    assert (Get (cache (DropWithPrefix t now order prefix).2) now k = (Object it, true))
      as Hfound by (apply Get_found; eauto).
    rewrite Get_after_DropWithPrefix in Hfound; [done|done|lia|].
    rewrite Hp. apply HasPrefix_empty.
  - intros later key required Hle. apply getImpl_absent.
    apply Get_after_DropWithPrefix; [done|done|]. rewrite Hp. apply HasPrefix_empty.
Qed.

Lemma drop_with_empty_prefix_witness :
  let t := (SetRaw (NewDefault "s") 5 (bytes_of_string "x1") (bytes_of_string "u") 0).2 in
  Items (cache (DropWithPrefix t 9 map_to_list None).2) 9 = ∅ ∧
  (∀ later key required,
     (9 ≤ later)%Z →
     getImpl (DropWithPrefix t 9 map_to_list None).2 later key required = absent required).
Proof.
  intros t. apply (drop_with_empty_prefix t 9 map_to_list None).
  - intros m. unfold ranges. reflexivity.
  - reflexivity.
Defined.

(** X10.  [DropWithPrefix] is idempotent: a second call with the same
    prefix, at the same clock reading or later and in any iteration order,
    returns the store the first call left. *)
Theorem drop_with_prefix_twice (t : cacheStore) (now later : Z)
    (order order' : rangeOrder) (prefix : bytes) :
  fair order → fair order' → (now ≤ later)%Z →
  (DropWithPrefix (DropWithPrefix t now order prefix).2 later order' prefix).2
  = (DropWithPrefix t now order prefix).2.
Proof.
  intros Hfair Hfair' Hle.
  set (t' := (DropWithPrefix t now order prefix).2).
  assert (cache (DropWithPrefix t' later order' prefix).2 = cache t') as Hc.
  { apply Cache_eq.
    - unfold DropWithPrefix at 1. cbn. by rewrite drop_loop_default.
    - apply map_eq. intros k. rewrite DropWithPrefix_lookup by done.
      destruct (decide _) as [[Hp [it Hit]]|]; [|done]. exfalso.
      assert (Get (cache t') later k = (Object it, true)) as Hfound
        by (apply Get_found; eauto).
      subst t'. by rewrite Get_after_DropWithPrefix in Hfound. }
  unfold DropWithPrefix at 1. unfold DropWithPrefix at 1 in Hc.
  cbn [snd with_cache cache] in *. rewrite Hc. apply with_cache_same.
Qed.

Lemma drop_with_prefix_twice_witness :
  let t := (SetRaw (SetRaw (NewDefault "s") 5 (bytes_of_string "x1")
                      (bytes_of_string "u") 0).2
              6 (bytes_of_string "y1") (bytes_of_string "w") 0).2 in
  (DropWithPrefix (DropWithPrefix t 9 map_to_list (bytes_of_string "x")).2
     10 map_to_list (bytes_of_string "x")).2
  = (DropWithPrefix t 9 map_to_list (bytes_of_string "x")).2.
Proof.
  intros t. apply (drop_with_prefix_twice t 9 10 map_to_list map_to_list).
  - intros m. unfold ranges. reflexivity.
  - intros m. unfold ranges. reflexivity.
  - lia.
Defined.

(** ** More on enumeration *)

Lemma visitForward_recording_prefix {V : Type} (cb : visitor V)
    (entries log : list RawEntry) (v : V) :
  ∃ seen, (visitForward (recording cb) entries (v, log)).2 = log ++ seen
          ∧ seen `prefix_of` entries.
Proof.
  revert v log. induction entries as [|entry rest IH]; intros v log.
  - exists []. by rewrite app_nil_r.
  - cbn [visitForward]. unfold recording at 1. cbn [fst snd].
    destruct (cb entry v) as [v' []].
    + destruct (IH v' (log ++ [entry])) as (seen & Heq & Hpre).
      exists (entry :: seen). rewrite Heq, <- app_assoc. split; [done|].
      by apply prefix_cons.
    + exists [entry]. split; [done|]. apply prefix_cons, prefix_nil.
Qed.

Lemma elem_of_selected (prefix seek : bytes) (onlyKeys : bool)
    (l : list (string * Item)) (entry : RawEntry) :
  entry ∈ selected prefix seek onlyKeys l ↔
  ∃ kv, kv ∈ l
        ∧ candidate (string_of_bytes prefix) (string_of_bytes seek) kv = true
        ∧ entry = entryOf onlyKeys kv.
Proof.
  unfold selected. rewrite list_elem_of_fmap. split.
  - intros (kv & -> & [Hsel Hin]%list_elem_of_filter). eauto.
  - intros (kv & Hin & Hsel & ->). exists kv. split; [done|].
    by apply list_elem_of_filter.
Qed.

Lemma elem_of_order (order : rangeOrder) (m : gmap string Item) (k : string) (it : Item) :
  fair order → (k, it) ∈ order m ↔ m !! k = Some it.
Proof. intros Hfair. rewrite (Hfair m). apply elem_of_map_to_list. Qed.

(** X11.  Early termination.  Whatever the visitor does, what an
    enumeration delivers is an initial part of the full sequence of its mode
    (the selected entries in iteration order, or that sequence reversed); a
    visitor that returns false at once is handed the first entry of that
    sequence and no other. *)
Theorem enumerate_stops_early {V : Type} (t : cacheStore) (now : Z)
    (order : rangeOrder) (prefix seek : bytes) (batchSize : Z)
    (onlyKeys reverse : bool) (cb : visitor V) (v : V) :
  let all := delivered t now order prefix seek batchSize onlyKeys reverse keepGoing tt in
  delivered t now order prefix seek batchSize onlyKeys reverse cb v `prefix_of` all ∧
  ((∀ entry v, (cb entry v).2 = false) →
   delivered t now order prefix seek batchSize onlyKeys reverse cb v = take 1 all).
Proof.
  cbv zeta. rewrite (delivered_selected _ _ _ _ _ _ _ _ keepGoing tt neverStops_keepGoing).
  cbv zeta. unfold delivered. rewrite EnumerateRaw_selected. cbv zeta. cbn [snd].
  set (all := if reverse then _ else _). split.
  - destruct (visitForward_recording_prefix cb all [] v) as (seen & -> & Hpre). done.
  - intros Hstop. destruct all as [|entry rest]; [done|].
    cbn [visitForward take]. unfold recording at 1. cbn [fst snd].
    specialize (Hstop entry v). destruct (cb entry v) as [v' c]. cbn in Hstop.
    by subst c.
Qed.

Lemma enumerate_stops_early_witness :
  let t := (SetRaw (SetRaw (NewDefault "s") 5 (bytes_of_string "a1")
                      (bytes_of_string "x") 0).2
              6 (bytes_of_string "a2") (bytes_of_string "y") 0).2 in
  let stop : visitor unit := λ _ u, (u, false) in
  delivered t 9 map_to_list (bytes_of_string "a") None 0 false true stop tt
  = take 1 (delivered t 9 map_to_list (bytes_of_string "a") None 0 false true keepGoing tt).
Proof.
  intros t stop.
  apply (enumerate_stops_early t 9 map_to_list (bytes_of_string "a") None 0 false true
           stop tt).
  intros entry u. reflexivity.
Defined.

(** X12.  Every entry an enumeration delivers, to any visitor and in either
    mode, comes from an item of the snapshot that holds a byte slice: its
    key is that item's key as a non-nil slice, its [Ttl] and its [Version]
    are both the item's expiration instant, and its value is the item's
    slice, or nil when [onlyKeys] is set. *)
Theorem delivered_entries {V : Type} (t : cacheStore) (now : Z)
    (order : rangeOrder) (prefix seek : bytes) (batchSize : Z)
    (onlyKeys reverse : bool) (cb : visitor V) (v : V) (entry : RawEntry) :
  fair order →
  entry ∈ delivered t now order prefix seek batchSize onlyKeys reverse cb v →
  ∃ k it b,
    Items (cache t) now !! k = Some it ∧ Object it = ObjBytes b ∧
    HasPrefix k (string_of_bytes prefix) = true ∧
    string_ge k (string_of_bytes seek) = true ∧
    entry = {| Key := bytes_of_string k;
               Value := if onlyKeys then None else b;
               Ttl := Expiration it;
               Version := Expiration it |}.
Proof.
  intros Hfair Hin.
  assert (entry ∈ selected prefix seek onlyKeys (order (Items (cache t) now))) as Hsel.
  { unfold delivered in Hin. rewrite EnumerateRaw_selected in Hin. cbv zeta in Hin.
    cbn [snd] in Hin.
    destruct (visitForward_recording_prefix cb
                (if reverse
                 then rev (selected prefix seek onlyKeys (order (Items (cache t) now)))
                 else selected prefix seek onlyKeys (order (Items (cache t) now)))
                [] v) as (seen & Heq & [rest Hpre]).
    rewrite Heq in Hin. cbn [app] in Hin.
    assert (entry ∈ seen ++ rest) as Hall by (apply elem_of_app; by left).
    rewrite <- Hpre in Hall. destruct reverse; [|done].
    by apply list_elem_of_In, in_rev, list_elem_of_In in Hall. }
  apply elem_of_selected in Hsel as ([k it] & Hkv & Hcand & ->).
  apply (elem_of_order order) in Hkv; [|done].
  apply candidate_true in Hcand as ([b Hb] & Hp & Hs).
  exists k, it, b. unfold entryOf. cbn [fst snd]. by rewrite Hb.
Qed.

Lemma delivered_entries_witness :
  let t := (SetRaw (NewDefault "s") 5 (bytes_of_string "a1") (bytes_of_string "x") 0).2 in
  let entry := {| Key := bytes_of_string "a1"; Value := None; Ttl := 0; Version := 0 |} in
  ∃ k it b,
    Items (cache t) 9 !! k = Some it ∧ Object it = ObjBytes b ∧
    HasPrefix k (string_of_bytes (bytes_of_string "a")) = true ∧
    string_ge k (string_of_bytes None) = true ∧
    entry = {| Key := bytes_of_string k;
               Value := if true then None else b;
               Ttl := Expiration it;
               Version := Expiration it |}.
Proof.
  intros t entry.
  apply (delivered_entries t 9 map_to_list (bytes_of_string "a") None 0 true false
           keepGoing tt entry).
  - intros m. unfold ranges. reflexivity.
  - vm_compute. left.
Defined.

Lemma delivered_keys {V : Type} (t : cacheStore) (now : Z)
    (order : rangeOrder) (prefix seek : bytes) (batchSize : Z)
    (onlyKeys reverse : bool) (cb : visitor V) (v : V) (key : string) :
  fair order → neverStops cb →
  bytes_of_string key
    ∈ Key <$> delivered t now order prefix seek batchSize onlyKeys reverse cb v ↔
  ∃ it, Items (cache t) now !! key = Some it
        ∧ candidate (string_of_bytes prefix) (string_of_bytes seek) (key, it) = true.
Proof.
  intros Hfair Hcb. rewrite delivered_selected by done. cbv zeta.
  set (all := selected prefix seek onlyKeys (order (Items (cache t) now))).
  assert (∀ e, e ∈ (if reverse then rev all else all) ↔ e ∈ all) as Hrev.
  { intros e. destruct reverse; [|done].
    rewrite !list_elem_of_In. symmetry. apply in_rev. }
  rewrite list_elem_of_fmap. split.
  - intros (e & Hkey & He%Hrev). subst all.
    apply elem_of_selected in He as ([k it] & Hkv & Hcand & ->).
    cbn in Hkey. apply bytes_of_string_inj in Hkey as ->.
    exists it. split; [|done]. by apply (elem_of_order order).
  - intros (it & Hit & Hcand). exists (entryOf onlyKeys (key, it)). split; [done|].
    apply Hrev. subst all. apply elem_of_selected. exists (key, it).
    split; [by apply (elem_of_order order)|done].
Qed.

(** X13.  A key written by [SetRaw] without a TTL shows up in every later
    enumeration whose prefix it starts with and whose seek key it is not
    below: a visitor that does not stop early is handed its entry, with the
    key, the value written (nil under [onlyKeys]) and zero for [Ttl] and
    [Version]. *)
Theorem set_then_enumerate {V : Type} (t : cacheStore) (now later : Z)
    (order : rangeOrder) (key value prefix seek : bytes) (ttlSeconds batchSize : Z)
    (onlyKeys reverse : bool) (cb : visitor V) (v : V) :
  fair order → neverStops cb → (ttlSeconds ≤ 0)%Z →
  HasPrefix (string_of_bytes key) (string_of_bytes prefix) = true →
  string_ge (string_of_bytes key) (string_of_bytes seek) = true →
  {| Key := bytes_of_string (string_of_bytes key);
     Value := if onlyKeys then None else value;
     Ttl := 0;
     Version := 0 |}
  ∈ delivered (SetRaw t now key value ttlSeconds).2 later order prefix seek batchSize
      onlyKeys reverse cb v.
Proof.
  intros Hfair Hcb Httl Hp Hs. rewrite delivered_selected by done. cbv zeta.
  set (it := mkItem (ObjBytes value) 0).
  assert (Items (cache (SetRaw t now key value ttlSeconds).2) later
            !! string_of_bytes key = Some it) as Hit.
  { apply lookup_Items. unfold SetRaw. cbn.
    by rewrite lookup_insert_eq, ttlDuration_no_ttl by done. }
  assert (entryOf onlyKeys (string_of_bytes key, it)
          ∈ selected prefix seek onlyKeys
              (order (Items (cache (SetRaw t now key value ttlSeconds).2) later)))
    as Hin.
  { apply elem_of_selected. exists (string_of_bytes key, it).
    split; [by apply (elem_of_order order)|]. split; [|done].
    apply candidate_true. cbn. eauto. }
  destruct reverse; [|done].
  by rewrite list_elem_of_In, <- in_rev, <- list_elem_of_In.
Qed.

Lemma set_then_enumerate_witness :
  {| Key := bytes_of_string "a1"; Value := bytes_of_string "x"; Ttl := 0; Version := 0 |}
  ∈ delivered (SetRaw (NewDefault "s") 5 (bytes_of_string "a1") (bytes_of_string "x") 0).2
      9 map_to_list (bytes_of_string "a") None 0 false true keepGoing tt.
Proof.
  apply (set_then_enumerate (NewDefault "s") 5 9 map_to_list (bytes_of_string "a1")
           (bytes_of_string "x") (bytes_of_string "a") None 0 0 false true keepGoing tt).
  - intros m. unfold ranges. reflexivity.
  - intros entry u. reflexivity.
  - lia.
  - reflexivity.
  - reflexivity.
Defined.

(** ** Stores that only the adapter has written *)

Lemma onlyBytes_Set (t : cacheStore) (now : Z) (k : string) (b : bytes) (d : Z) :
  onlyBytes t → onlyBytes (with_cache t (Set_ (cache t) now k (ObjBytes b) d)).
Proof.
  intros Hob k' it. cbn. destruct (decide (k = k')) as [->|Hne].
  - rewrite lookup_insert_eq. intros [= <-]. by exists b.
  - rewrite lookup_insert_ne by done. apply Hob.
Qed.

Lemma onlyBytes_perform (t : cacheStore) (o : operation) :
  onlyBytes t → onlyBytes (perform t o).
Proof.
  intros Hob.
  destruct o as [now key value ttl|now key value ttl version
                |g s key initial delta ttl|A g s key cb env|g s key ttl
                |key|now| |now order prefix]; cbn [perform].
  - by apply onlyBytes_Set.
  - by apply onlyBytes_Set.
  - rewrite IncrementRaw_step. by apply onlyBytes_Set.
  - rewrite UpdateRaw_unfold. cbv zeta.
    destruct (cb (currentEntry t g key) env).2; [|done]. by apply onlyBytes_Set.
  - by apply onlyBytes_Set.
  - intros k it. cbn. destruct (decide (string_of_bytes key = k)) as [->|Hne].
    + by rewrite lookup_delete_eq.
    + rewrite lookup_delete_ne by done. apply Hob.
  - intros k it. cbn. intros [Hit _]%lookup_Items. by apply (Hob k).
  - intros k it. cbn. by rewrite lookup_empty.
  - intros k it. unfold DropWithPrefix. cbn [snd with_cache cache].
    rewrite drop_loop_lookup. destruct (decide _); [done|]. apply Hob.
Qed.

Lemma onlyBytes_after (t : cacheStore) (history : list operation) :
  onlyBytes t → onlyBytes (after t history).
Proof.
  unfold after. revert t. induction history as [|o rest IH]; intros t Hob; [done|].
  cbn [fold_left]. by apply IH, onlyBytes_perform.
Qed.

(** X14.  A store created by [New] and changed only through the adapter
    holds nothing but byte slices, whatever the history of calls.  In such a
    store an enumeration delivers, to a visitor that does not stop early, the
    entries of exactly the keys of the snapshot that start with the prefix
    and are not below the seek key, and with the nil prefix and seek key
    those of every key of the snapshot. *)
Theorem adapter_store_enumeration {V : Type} (name : string) (options : list Option)
    (history : list operation) (now : Z) (order : rangeOrder)
    (prefix seek : bytes) (batchSize : Z) (onlyKeys reverse : bool)
    (cb : visitor V) (v : V) :
  fair order → neverStops cb →
  let t := after (New name options) history in
  onlyBytes t ∧
  (∀ key : string,
     bytes_of_string key
       ∈ Key <$> delivered t now order prefix seek batchSize onlyKeys reverse cb v ↔
     is_Some (Items (cache t) now !! key) ∧
     HasPrefix key (string_of_bytes prefix) = true ∧
     string_ge key (string_of_bytes seek) = true) ∧
  (∀ key : string,
     bytes_of_string key
       ∈ Key <$> delivered t now order None None batchSize onlyKeys reverse cb v ↔
     is_Some (Items (cache t) now !! key)).
Proof.
  intros Hfair Hcb. cbv zeta.
  assert (onlyBytes (after (New name options) history)) as Hob.
  { apply onlyBytes_after. intros k it. unfold New, OpenDatabase, Engine.New. cbn.
    by rewrite lookup_empty. }
  split; [done|].
  assert (∀ p s (key : string),
            bytes_of_string key
              ∈ Key <$> delivered (after (New name options) history) now order p s
                          batchSize onlyKeys reverse cb v ↔
            is_Some (Items (cache (after (New name options) history)) now !! key) ∧
            HasPrefix key (string_of_bytes p) = true ∧
            string_ge key (string_of_bytes s) = true) as Hgen.
  { intros p s key. rewrite delivered_keys by done. split.
    - intros (it & Hit & (_ & Hp & Hs)%candidate_true). eauto.
    - intros ([it Hit] & Hp & Hs). exists it. split; [done|].
      apply candidate_true. split; [|done].
      apply lookup_Items in Hit as [Hit _]. by apply (Hob key). }
  split; [apply Hgen|].
  intros key. rewrite Hgen. cbn [string_of_bytes].
  rewrite HasPrefix_empty, string_ge_empty. split; [by intros [? _]|done].
Qed.

Lemma adapter_store_enumeration_witness :
  let history :=
    [DoSet 5 (bytes_of_string "a1") (bytes_of_string "x") 0;
     DoIncrement 6 7 (bytes_of_string "a2") 0 1 0;
     DoTouch 8 9 (bytes_of_string "b1") 0] in
  let t := after (New "s" []) history in
  bytes_of_string "b1"
    ∈ Key <$> delivered t 10 map_to_list None None 0 false false keepGoing tt ↔
  is_Some (Items (cache t) 10 !! "b1"%string).
Proof.
  intros history t.
  destruct (adapter_store_enumeration "s" [] history 10 map_to_list None None 0
              false false keepGoing tt) as (_ & _ & Hall).
  - intros m. unfold ranges. reflexivity.
  - intros entry u. reflexivity.
  - exact (Hall "b1"%string).
Defined.

(** ** More on Update and Increment *)

(** X15.  A committed [UpdateRaw] does not carry the old expiration over:
    when the mutator leaves the [Ttl] field as it was handed, the entry is
    written with no expiration, whatever TTL the key had, and every later
    read returns the value the mutator left in the entry (a nil value reads
    as [ErrNotExist] when required). *)
Theorem update_clears_expiration {A : Type} (t : cacheStore) (now_get now_set : Z)
    (key : bytes) (cb : mutator A) (env : A) :
  keepsTtl cb →
  (cb (currentEntry t now_get key) env).2 = true →
  let value := Value (cb (currentEntry t now_get key) env).1.1 in
  let t' := (UpdateRaw t now_get now_set key cb env).1.2 in
  (UpdateRaw t now_get now_set key cb env).1.1 = None ∧
  items (cache t') !! string_of_bytes key = Some (mkItem (ObjBytes value) 0) ∧
  (∀ later required,
     getImpl t' later key required =
       match value, required with
       | None, true => (None, Some ErrNotExist)
       | _, _ => (value, None)
       end).
Proof.
  intros Hkeep Hcommit. cbv zeta. rewrite UpdateRaw_unfold. cbv zeta.
  rewrite Hcommit. cbn [fst snd].
  assert (ttlDuration (Ttl (cb (currentEntry t now_get key) env).1.1) = NoExpiration)
    as Httl by (rewrite Hkeep; done).
  assert (items (cache (with_cache t
            (Set_ (cache t) now_set (string_of_bytes key)
               (ObjBytes (Value (cb (currentEntry t now_get key) env).1.1))
               (ttlDuration (Ttl (cb (currentEntry t now_get key) env).1.1)))))
          !! string_of_bytes key
          = Some (mkItem (ObjBytes (Value (cb (currentEntry t now_get key) env).1.1)) 0))
    as Hitem by (cbn; rewrite lookup_insert_eq, Httl; done).
  split; [done|]. split; [done|].
  intros later required. apply getImpl_bytes. unfold Get. by rewrite Hitem.
Qed.

Lemma update_clears_expiration_witness :
  let k := bytes_of_string "k" in
  let t := (SetRaw (NewDefault "s") 100 k (bytes_of_string "v") 1).2 in
  let cb : mutator unit := λ entry env, (entry, env, true) in
  let t' := (UpdateRaw t 200 300 k cb tt).1.2 in
  getImpl t 2000000000 k true = (None, Some ErrNotExist) ∧
  ∀ later required, getImpl t' later k required = (bytes_of_string "v", None).
Proof.
  intros k t cb t'. split; [vm_compute; reflexivity|].
  destruct (update_clears_expiration t 200 300 k cb tt) as (_ & _ & Hread).
  - intros entry env. reflexivity.
  - reflexivity.
  - intros later required. unfold t'. rewrite (Hread later required).
    destruct required; vm_compute; reflexivity.
Defined.

(** X16.  Counting with any start and step.  On a key the engine holds no
    item for, calls of [IncrementRaw] in a row, with no TTL or with none of
    the writes expired at the next read, return [initial], [initial + delta],
    [initial + 2 * delta], ..., each reduced to a signed 64-bit value, and
    leave the eight bytes of [initial + n * delta] modulo [2 ^ 64]. *)
Theorem increment_progression (t : cacheStore) (key : bytes)
    (initial delta ttlSeconds : Z) (clocks : list (Z * Z)) :
  items (cache t) !! string_of_bytes key = None →
  Int64.in_range initial →
  (ttlSeconds ≤ 0)%Z ∨ staysLive (defaultExpiration (cache t)) ttlSeconds clocks →
  let n := List.length clocks in
  (incrementAll t clocks key initial delta ttlSeconds).1
    = map (λ i, Int64.wrap (initial + Z.of_nat i * delta)) (seq 0 n) ∧
  (clocks ≠ [] →
   ∃ e, items (cache (incrementAll t clocks key initial delta ttlSeconds).2)
          !! string_of_bytes key
        = Some (mkItem
                  (ObjBytes (BigEndian.PutUint64
                               (Int64.unsigned (initial + Z.of_nat n * delta)))) e)).
Proof.
  intros Hfresh Hinit Hlive. cbv zeta.
  assert (staysLive (defaultExpiration (cache t)) ttlSeconds clocks) as Hlive'
    by (destruct Hlive; [by apply staysLive_no_ttl|done]).
  destruct (incrementAll_run key initial delta ttlSeconds Hinit clocks t Hlive')
    as [Hprevs Hstored].
  assert (match clocks with
          | [] => initial
          | (now_get, _) :: _ => counterAt t now_get key initial
          end = initial) as Hfirst.
  { destruct clocks as [|[g s] rest]; [done|].
    unfold counterAt. by rewrite (Get_absent _ _ _ Hfresh). }
  rewrite Hfirst in Hprevs, Hstored. done.
Qed.

Lemma increment_progression_witness :
  let t := NewDefault "s" in
  let key := bytes_of_string "n" in
  let clocks := [(10, 11); (20, 21); (30, 31)]%Z in
  (incrementAll t clocks key (Int64.max_signed - 1) 1 0).1
  = [Int64.max_signed - 1; Int64.max_signed; Int64.min_signed]%Z.
Proof.
  intros t key clocks.
  destruct (increment_progression t key (Int64.max_signed - 1) 1 0 clocks) as [Hprevs _].
  - reflexivity.
  - vm_compute. split; discriminate.
  - left. lia.
  - exact Hprevs.
Defined.

(** X17.  What [IncrementRaw] writes can be read back.  After a call with no
    TTL every later read of the key returns, with no error, eight bytes whose
    big-endian value is the returned counter plus [delta] modulo [2 ^ 64],
    and the next call returns that sum as a signed 64-bit value, whatever
    its own [initial]; every other key keeps its item. *)
Theorem increment_reads_back (t : cacheStore) (now_get now_set : Z) (key : bytes)
    (initial delta ttlSeconds : Z) :
  (ttlSeconds ≤ 0)%Z →
  let prev := (IncrementRaw t now_get now_set key initial delta ttlSeconds).1.1 in
  let t' := (IncrementRaw t now_get now_set key initial delta ttlSeconds).2 in
  (∀ later required,
     ∃ b, getImpl t' later key required = (b, None) ∧ len b = 8%Z ∧
          BigEndian.Uint64 b = Some ((prev + delta) `mod` 2 ^ 64)%Z) ∧
  (∀ g s initial' delta' ttl',
     (IncrementRaw t' g s key initial' delta' ttl').1.1 = Int64.wrap (prev + delta)) ∧
  (∀ k', k' ≠ string_of_bytes key → items (cache t') !! k' = items (cache t) !! k').
Proof.
  intros Httl. cbv zeta. rewrite IncrementRaw_step. cbn [fst snd].
  set (prev := counterAt t now_get key initial).
  assert (∀ later,
            Get (cache (SetRaw t now_set key
                          (BigEndian.PutUint64 (Int64.unsigned (prev + delta)))
                          ttlSeconds).2) later (string_of_bytes key)
            = (ObjBytes (BigEndian.PutUint64 (Int64.unsigned (prev + delta))), true))
    as HG.
  { intros later. rewrite Get_after_SetRaw. by rewrite ttlDuration_no_ttl by done. }
  split; [|split].
  - intros later required.
    exists (BigEndian.PutUint64 (Int64.unsigned (prev + delta))).
    rewrite (getImpl_bytes _ _ _ _ _ (HG later)). split; [by destruct required|].
    split.
    + unfold BigEndian.PutUint64, len. by rewrite BigEndianFacts.length_encode.
    + rewrite BigEndianFacts.Uint64_PutUint64. unfold Int64.unsigned, Int64.modulus.
      by rewrite Z.mod_mod by lia.
  - intros g s initial' delta' ttl'. rewrite IncrementRaw_step. cbn [fst].
    unfold counterAt at 1. rewrite HG. cbn [bytesOf].
    by rewrite BigEndianFacts.Uint64_PutUint64, !wrap_unsigned.
  - intros k' Hne. cbn. by rewrite lookup_insert_ne.
Qed.

Lemma increment_reads_back_witness :
  let t := NewDefault "s" in
  let key := bytes_of_string "n" in
  (IncrementRaw (IncrementRaw t 10 11 key 7 3 0).2 20 21 key 100 1 0).1.1 = 10%Z.
Proof.
  intros t key.
  destruct (increment_reads_back t 10 11 key 7 3 0) as (_ & Hnext & _); [lia|].
  exact (Hnext 20 21 100 1 0)%Z.
Defined.

Lemma fmap_rev {A B : Type} (f : A → B) (l : list A) : f <$> rev l = rev (f <$> l).
Proof.
  induction l as [|x l IH]; [done|]. cbn [rev]. rewrite fmap_app, IH. done.
Qed.

(** X18.  The prefix and the seek key are filters over one enumeration, and
    [onlyKeys] touches values only.  For a visitor that does not stop early:
    a key is delivered under a prefix and a seek key exactly when it is
    delivered with neither and starts with the prefix and is not below the
    seek key; and the keys delivered with [onlyKeys] are, in the same order,
    the keys delivered without it. *)
Theorem enumeration_filters {V : Type} (t : cacheStore) (now : Z)
    (order : rangeOrder) (prefix seek : bytes) (batchSize : Z)
    (onlyKeys reverse : bool) (cb : visitor V) (v : V) :
  fair order → neverStops cb →
  (∀ key : string,
     bytes_of_string key
       ∈ Key <$> delivered t now order prefix seek batchSize onlyKeys reverse cb v ↔
     bytes_of_string key
       ∈ Key <$> delivered t now order None None batchSize onlyKeys reverse cb v ∧
     HasPrefix key (string_of_bytes prefix) = true ∧
     string_ge key (string_of_bytes seek) = true) ∧
  Key <$> delivered t now order prefix seek batchSize true reverse cb v
  = Key <$> delivered t now order prefix seek batchSize false reverse cb v.
Proof.
  intros Hfair Hcb. split.
  - intros key. rewrite !delivered_keys by done. split.
    + intros (it & Hit & ([b Hb] & Hp & Hs)%candidate_true).
      split; [|done]. exists it. split; [done|]. apply candidate_true.
      cbn [string_of_bytes]. rewrite HasPrefix_empty, string_ge_empty. eauto.
    + intros ((it & Hit & (Hb & _ & _)%candidate_true) & Hp & Hs).
      exists it. split; [done|]. by apply candidate_true.
  - rewrite !delivered_selected by done. cbv zeta.
    destruct reverse; [rewrite !fmap_rev; f_equal|]; by rewrite !Key_selected.
Qed.

Lemma enumeration_filters_witness :
  let t := (SetRaw (SetRaw (NewDefault "s") 5 (bytes_of_string "a1")
                      (bytes_of_string "x") 0).2
              6 (bytes_of_string "b1") (bytes_of_string "y") 0).2 in
  Key <$> delivered t 9 map_to_list (bytes_of_string "a") None 0 true false keepGoing tt
  = Key <$> delivered t 9 map_to_list (bytes_of_string "a") None 0 false false keepGoing tt.
Proof.
  intros t.
  apply (enumeration_filters t 9 map_to_list (bytes_of_string "a") None 0 false false
           keepGoing tt).
  - intros m. unfold ranges. reflexivity.
  - intros entry u. reflexivity.
Defined.

(** ** The store's identity and construction *)

Lemma perform_keeps (t : cacheStore) (o : operation) :
  name (perform t o) = name t ∧
  defaultExpiration (cache (perform t o)) = defaultExpiration (cache t).
Proof.
  destruct o as [now key value ttl|now key value ttl version
                |g s key initial delta ttl|A g s key cb env|g s key ttl
                |key|now| |now order prefix]; cbn [perform];
    rewrite ?IncrementRaw_step, ?UpdateRaw_unfold; cbv zeta;
    try (destruct (cb (currentEntry t g key) env).2);
    unfold DropWithPrefix; cbn [snd with_cache cache name];
    rewrite ?drop_loop_default; done.
Qed.

(** X19.  No call changes what the store is: after any history of calls
    [BeanName] returns the name the store was created with, the engine that
    [Instance] returns has the default expiration it was opened with, and
    [Destroy] reports no error. *)
Theorem operations_keep_identity (t : cacheStore) (history : list operation) :
  BeanName (after t history) = BeanName t ∧
  defaultExpiration (Instance (after t history)) = defaultExpiration (Instance t) ∧
  Destroy (after t history) = None.
Proof.
  unfold BeanName, Instance, after. split; [|split; [|done]].
  - revert t. induction history as [|o rest IH]; intros t; [done|].
    cbn [fold_left]. rewrite IH. apply perform_keeps.
  - revert t. induction history as [|o rest IH]; intros t; [done|].
    cbn [fold_left]. rewrite IH. apply perform_keeps.
Qed.

Lemma OpenDatabase_items (options : list Option) : items (OpenDatabase options) = ∅.
Proof. done. Qed.

(** X20.  A store made by [New], with any options, or by [NewDefault]
    carries the name it was given and holds nothing: every read of every key
    is a read of an absent key, the snapshot is empty and an enumeration
    hands its visitor nothing.  Its engine's default expiration is never the
    zero duration, so no write can fall back to an unset default. *)
Theorem new_store_is_empty (name : string) (options : list Option) :
  let t := New name options in
  NewDefault name = New name [] ∧
  BeanName t = name ∧
  (∀ now key required, getImpl t now key required = absent required) ∧
  (∀ now, Items (cache t) now = ∅) ∧
  (∀ (V : Type) now order prefix seek batchSize onlyKeys reverse (cb : visitor V) v,
     fair order →
     delivered t now order prefix seek batchSize onlyKeys reverse cb v = []) ∧
  defaultExpiration (Instance t) ≠ DefaultExpiration.
Proof.
  cbv zeta.
  assert (∀ now, Items (cache (New name options)) now = ∅) as Hitems
    by (intros now; unfold Items; cbn; apply map_filter_empty).
  split; [done|]. split; [done|]. split; [|split; [done|split]].
  - intros now key required. apply getImpl_absent, Get_absent. cbn. apply lookup_empty.
  - intros V now order prefix seek batchSize onlyKeys reverse cb v Hfair.
    unfold delivered. rewrite EnumerateRaw_selected. cbv zeta.
    rewrite Hitems, (order_empty order Hfair). by destruct reverse.
  - unfold Instance, New, OpenDatabase, Engine.New, DefaultExpiration. cbn.
    destruct (_ =? 0)%Z eqn:Hz; [done|]. by apply Z.eqb_neq in Hz.
Qed.

Lemma options_tail (tail : list Option) (conf : Config) :
  Forall (λ opt, opt = WithNope ∨ ∃ i, opt = WithCleanupInterval i) tail →
  ConfDefaultExpiration (fold_left (λ conf opt, opt conf) tail conf)
  = ConfDefaultExpiration conf.
Proof.
  revert conf. induction tail as [|opt tail IH]; intros conf Htail; [done|].
  apply Forall_cons in Htail as [Hopt Htail]. cbn [fold_left]. rewrite IH by done.
  by destruct Hopt as [->|[i ->]].
Qed.

(** X21.  How [OpenDatabase] reads its options: with no [WithDefaultExpiration]
    among them the engine is opened with no expiration; otherwise the last
    [WithDefaultExpiration] decides, whatever options precede it, with zero
    standing for no expiration; [WithNope] and [WithCleanupInterval] never
    change the default expiration. *)
Theorem open_database_options (before tail : list Option) (d : Z) :
  Forall (λ opt, opt = WithNope ∨ ∃ i, opt = WithCleanupInterval i) tail →
  defaultExpiration (OpenDatabase tail) = NoExpiration ∧
  defaultExpiration (OpenDatabase (before ++ WithDefaultExpiration d :: tail))
  = (if (d =? 0)%Z then NoExpiration else d).
Proof.
  intros Htail. unfold OpenDatabase, Engine.New. cbn [defaultExpiration]. split.
  - by rewrite options_tail by done.
  - rewrite fold_left_app. cbn [fold_left]. by rewrite options_tail by done.
Qed.

Lemma open_database_options_witness :
  defaultExpiration (OpenDatabase [WithCleanupInterval 5; WithNope]) = NoExpiration ∧
  defaultExpiration
    (OpenDatabase ([WithDefaultExpiration 7; WithNope]
                   ++ WithDefaultExpiration (60 * Second) :: [WithCleanupInterval 5; WithNope]))
  = (if (60 * Second =? 0)%Z then NoExpiration else 60 * Second)%Z.
Proof.
  apply (open_database_options [WithDefaultExpiration 7; WithNope]
           [WithCleanupInterval 5; WithNope] (60 * Second)).
  constructor; [right; by exists 5%Z|]. constructor; [by left|]. constructor.
Defined.

(** ** Contracts of the single-key calls *)

(** X22.  What [GetRaw] can answer.  Its only error is [ErrNotExist], which
    it reports only for a required read and only together with the nil
    slice; a read that is not required never fails, and a required read that
    succeeds returns a non-nil slice.  Both kinds of read see the same
    value. *)
Theorem get_contract (t : cacheStore) (now : Z) (key : bytes) (required : bool) :
  let value := (GetRaw t now key required).1 in
  let err := (GetRaw t now key required).2 in
  (err = None ∨ err = Some ErrNotExist) ∧
  (err = Some ErrNotExist → required = true ∧ value = None) ∧
  (required = false → err = None) ∧
  (required = true → err = None → value ≠ None) ∧
  (err = None → value = (GetRaw t now key false).1) ∧
  (GetRaw t now key true).1 = (GetRaw t now key false).1.
Proof.
  cbv zeta. unfold GetRaw, getImpl.
  destruct (bytesOf (Get (cache t) now (string_of_bytes key))) as [l|];
    destruct required; cbn; repeat split; try done; auto.
Qed.

(** X23.  [UpdateRaw] fails exactly when the mutator declines, and then with
    [ErrCanceled]: a key that is missing, expired or of another type is no
    error, the mutator is handed the nil value for it.  [IncrementRaw] never
    fails, and what the closure of a mutator has assigned is returned whether
    the write was committed or not. *)
Theorem update_errors {A : Type} (t : cacheStore) (now_get now_set : Z)
    (key : bytes) (cb : mutator A) (env : A) :
  ((UpdateRaw t now_get now_set key cb env).1.1 = None ↔
   (cb (currentEntry t now_get key) env).2 = true) ∧
  ((UpdateRaw t now_get now_set key cb env).1.1 = Some ErrCanceled ↔
   (cb (currentEntry t now_get key) env).2 = false) ∧
  (UpdateRaw t now_get now_set key cb env).2 = (cb (currentEntry t now_get key) env).1.2 ∧
  (bytesOf (Get (cache t) now_get (string_of_bytes key)) = None →
   Value (currentEntry t now_get key) = None) ∧
  (∀ initial delta ttlSeconds,
     (IncrementRaw t now_get now_set key initial delta ttlSeconds).1.2 = None).
Proof.
  rewrite UpdateRaw_unfold. cbv zeta.
  destruct (cb (currentEntry t now_get key) env) as [[e a] []]; cbn;
    repeat split; try done; intros; by rewrite ?IncrementRaw_step.
Qed.

(** ** Enumeration and reads agree *)

Lemma string_of_bytes_of_string (s : string) : string_of_bytes (bytes_of_string s) = s.
Proof. apply string_of_list_byte_of_string. Qed.

(** X24.  An enumeration and a read at the same clock reading see the same
    store.  With no prefix, no seek key and values asked for, every entry
    delivered carries the value that a read of its key returns, with no
    error; and, for a visitor that does not stop early, every key that reads
    as a byte slice is delivered with that slice. *)
Theorem enumerate_agrees_with_get {V : Type} (t : cacheStore) (now : Z)
    (order : rangeOrder) (batchSize : Z) (reverse : bool) (cb : visitor V) (v : V) :
  fair order →
  (∀ entry,
     entry ∈ delivered t now order None None batchSize false reverse cb v →
     bytesOf (Get (cache t) now (string_of_bytes (Key entry))) = Value entry ∧
     getImpl t now (Key entry) false = (Value entry, None)) ∧
  (neverStops cb →
   ∀ (k : string) b,
     Get (cache t) now k = (ObjBytes b, true) →
     ∃ entry,
       entry ∈ delivered t now order None None batchSize false reverse cb v ∧
       Key entry = bytes_of_string k ∧ Value entry = b).
Proof.
  intros Hfair. split.
  - intros entry Hin.
    assert (entry ∈ selected None None false (order (Items (cache t) now))) as Hsel.
    { unfold delivered in Hin. rewrite EnumerateRaw_selected in Hin. cbv zeta in Hin.
      cbn [snd] in Hin.
      destruct (visitForward_recording_prefix cb
                  (if reverse
                   then rev (selected None None false (order (Items (cache t) now)))
                   else selected None None false (order (Items (cache t) now)))
                  [] v) as (seen & Heq & [rest Hpre]).
      rewrite Heq in Hin. cbn [app] in Hin.
      assert (entry ∈ seen ++ rest) as Hall by (apply elem_of_app; by left).
      rewrite <- Hpre in Hall. destruct reverse; [|done].
      by rewrite list_elem_of_In, <- in_rev, <- list_elem_of_In in Hall. }
    apply elem_of_selected in Hsel as ([k it] & Hkv & Hcand & ->).
    apply (elem_of_order order) in Hkv; [|done].
    apply candidate_true in Hcand as ([b Hb] & _ & _).
    assert (Get (cache t) now k = (ObjBytes b, true)) as HG
      by (apply Get_found; eauto).
    unfold entryOf. cbn [fst snd Key Value]. rewrite Hb.
    rewrite getImpl_not_required, string_of_bytes_of_string, HG. done.
  - intros Hcb k b HG. apply Get_found in HG as (it & Hit & Hb).
    exists (entryOf false (k, it)). split; [|split].
    + rewrite delivered_selected by done. cbv zeta.
      assert (entryOf false (k, it)
              ∈ selected None None false (order (Items (cache t) now))) as Hin.
      { apply elem_of_selected. exists (k, it).
        split; [by apply (elem_of_order order)|]. split; [|done].
        apply candidate_true. cbn [string_of_bytes].
        rewrite HasPrefix_empty, string_ge_empty. eauto. }
      destruct reverse; [|done].
      by rewrite list_elem_of_In, <- in_rev, <- list_elem_of_In.
    + done.
    + unfold entryOf. cbn. by rewrite Hb.
Qed.

Lemma enumerate_agrees_with_get_witness :
  let t := (SetRaw (NewDefault "s") 5 (bytes_of_string "a1") (bytes_of_string "x") 0).2 in
  ∃ entry,
    entry ∈ delivered t 9 map_to_list None None 0 false false keepGoing tt ∧
    Key entry = bytes_of_string "a1" ∧ Value entry = bytes_of_string "x".
Proof.
  intros t.
  destruct (enumerate_agrees_with_get t 9 map_to_list 0 false keepGoing tt) as [_ Hall].
  - intros m. unfold ranges. reflexivity.
  - apply (Hall (λ entry u, eq_refl) "a1"%string (bytes_of_string "x")).
    vm_compute. reflexivity.
Defined.
